(** * dtls.Session: lifecycle, close hooks, idle timer and context cell

    A shallow embedding of [dtls/session.go] (the session with the idle
    timer, [closeSocket] and the atomic context cell; variant [SessionGo])
    and of its older sibling without them (variant [Part000]), followed by
    the properties of the session supervisor.

    The session is driven by several goroutines: the one that executes
    [Run], the idle-timer goroutine that [Run] starts, and arbitrary
    callers of the exported methods.  Every method body that runs under
    [s.mutex], every atomic load or store and every single call into a
    collaborator is one atomic transition ([step]); an execution is a
    schedule, a list of such transitions, and [exec] runs a schedule.
    What the collaborators answer (the transport, the message processor,
    the runtime that fires the timer, the clock) is part of the schedule,
    and any answer may come at any time.  Every call that matters is
    recorded, in order, in the [trace] of the world; the properties are
    stated on the traces of all schedules.

    What the model takes for granted:
    - [Run] is called at most once on a session, as the server does;
    - a hook is a function that is not nil and returns; a hook that calls
      methods of the session is a hook followed by those calls;
    - the collaborators ([ReadWithContext], [Process],
      [WriteWithContext], [connection.Close], [Marshal]) return and do
      not panic; the two panics of [Run] itself are modelled (a negative
      [maxMessageSize] in [make], a read length outside the buffer in the
      slice expression), and so is the panic of [context.WithValue];
    - a [time.Timer] is the timer of Go before 1.23: [Stop] and [Reset]
      do not drain the channel;
    - the contents of the datagrams are left out: no property depends on
      them. *)

From Stdlib Require Import String ZArith List Bool Arith Lia.
Import ListNotations.

(** ** Errors

    A Go [error] is [nil] or a value.  Values are told apart by the call
    that created them: [Message.Marshal], the transport connection,
    [ClientConn.Process], and [fmt.Errorf] wrapping another error with
    [%w]. *)

Inductive err_value : Type :=
| ErrMarshal (code : nat)
| ErrTransport (code : nat)
| ErrProcess (code : nat)
| Errorf (format : string) (wrapped : err_value).

Definition error : Type := option err_value.

Definition transport_error (code : option nat) : error :=
  option_map ErrTransport code.

Definition process_error (code : option nat) : error :=
  option_map ErrProcess code.

(** [if err == nil { err = err1 }] *)
Definition or_else (err err1 : error) : error :=
  match err with
  | None => err1
  | Some _ => err
  end.

(** ** Contexts

    [context.Context] values are chains.  A [cancelCtx] node stands for
    any cancellable ancestor ([WithCancel], [WithDeadline], [WithTimeout]);
    [id] names its cancel function.  Keys are [interface{}] values:
    [nil], a value of a type that is not comparable (a slice, a map, a
    function), a value of a comparable type that is not equal to itself
    (a floating-point NaN, or a struct or an array that holds one), or
    any other value, which [==] tells apart from the others. *)

Inductive key : Type :=
| KeyNil
| KeyUncomparable (n : nat)
| KeyNaN
| Key (n : nat).

Inductive val : Type :=
| ValNil
| Val (n : nat).

Inductive context : Type :=
| emptyCtx
| cancelCtx (parent : context) (id : nat)
| valueCtx (parent : context) (k : key) (v : val).

(** [c.key == key] on interface values; an uncomparable value is never a
    stored key, and a NaN equals nothing. *)
Definition key_eqb (a b : key) : bool :=
  match a, b with
  | KeyNil, KeyNil => true
  | Key x, Key y => Nat.eqb x y
  | _, _ => false
  end.

(** [ctx.Value(k)]: the innermost binding of [k], [nil] when there is none. *)
Fixpoint Value (c : context) (k : key) : val :=
  match c with
  | emptyCtx => ValNil
  | cancelCtx p _ => Value p k
  | valueCtx p k' v => if key_eqb k' k then v else Value p k
  end.

Fixpoint max_id (c : context) : nat :=
  match c with
  | emptyCtx => 0
  | cancelCtx p i => Nat.max i (max_id p)
  | valueCtx p _ _ => max_id p
  end.

(** [context.WithCancel(parent)]: a new node with a cancel function of its
    own. *)
Definition WithCancel (parent : context) : context * nat :=
  let id := S (max_id parent) in (cancelCtx parent id, id).

(** [context.WithValue(parent, key, val)] panics ([None]) on a [nil] key
    and on a key that is not comparable. *)
Definition WithValue (parent : context) (k : key) (v : val) : option context :=
  match k with
  | Key _ | KeyNaN => Some (valueCtx parent k v)
  | KeyNil | KeyUncomparable _ => None
  end.

(** The cancellation state of the program: the cancel functions that have
    been called.  Calling one twice changes nothing. *)
Definition mem (i : nat) (X : list nat) : bool := existsb (Nat.eqb i) X.

Definition call_cancel (i : nat) (X : list nat) : list nat :=
  if mem i X then X else i :: X.

(** Whether [c.Done()] is closed: some cancellable ancestor (or [c]
    itself) has been cancelled. *)
Fixpoint ctx_done (X : list nat) (c : context) : bool :=
  match c with
  | emptyCtx => false
  | cancelCtx p i => mem i X || ctx_done X p
  | valueCtx p _ _ => ctx_done X p
  end.

(** ** Messages *)

Definition bytes : Type := list Byte.byte.

Record Message : Type := mkMessage {
  msgBytes : bytes;              (* the encoding, when there is one *)
  msgMarshalErr : option nat;    (* the failure of Marshal, when it fails *)
  msgCtx : context               (* req.Context() *)
}.

Definition Marshal (req : Message) : bytes * error :=
  match msgMarshalErr req with
  | Some c => ([], Some (ErrMarshal c))
  | None => (msgBytes req, None)
  end.

(** ** The session *)

(** [type EventFunc = func()]: a hook is known by its name; calling it is
    an event of the trace. *)
Definition EventFunc : Type := nat.

Record Session : Type := mkSession {
  connection : nat;
  maxMessageSize : Z;
  closeSocket : bool;
  onClose : list EventFunc;
  cancel : nat;
  ctx : context
}.

(** The two source files.  [Part000] is the older session: no
    [closeSocket], no idle timer, no [SetContextValue], a plain [ctx]
    field; its [close] returns nothing and [Run] and [WriteMessage] log. *)
Inductive Variant : Type := SessionGo | Part000.

Definition NewSession (parent : context) (conn : nat) (maxMessageSize : Z)
    (closeSocket : bool) : Session :=
  let (c, cancel) := WithCancel parent in
  mkSession conn maxMessageSize closeSocket [] cancel c.

Definition Context (s : Session) : context := ctx s.

(** [s.Done()], as the state of the channel it returns. *)
Definition Done (X : list nat) (s : Session) : bool :=
  ctx_done X (Context s).

Definition AddOnClose (f : EventFunc) (s : Session) : Session :=
  mkSession (connection s) (maxMessageSize s) (closeSocket s)
            (onClose s ++ [f]) (cancel s) (ctx s).

Definition popOnClose (s : Session) : list EventFunc * Session :=
  let tmp := onClose s in
  (tmp, mkSession (connection s) (maxMessageSize s) (closeSocket s)
                  [] (cancel s) (ctx s)).

(** [None] when [context.WithValue] panics; the deferred unlock releases
    the mutex and the context cell keeps its content. *)
Definition SetContextValue (k : key) (v : val) (s : Session) : option Session :=
  match WithValue (Context s) k v with
  | Some c => Some (mkSession (connection s) (maxMessageSize s) (closeSocket s)
                              (onClose s) (cancel s) c)
  | None => None
  end.

Definition MaxMessageSize (s : Session) : Z := maxMessageSize s.

(** ** The world: session, goroutines, timer and trace *)

Inductive Actor : Type := Caller | RunLoop | IdleTimer.

(** [err] is the named result of [Run]; [panicking] says that the body was
    left by a panic and not by [return]. *)
Record frame : Type := mkFrame {
  ret_err : error;
  panicking : bool
}.

Inductive Outcome : Type :=
| Returns (err : error)
| Panics.

Definition outcome (fr : frame) : Outcome :=
  if panicking fr then Panics else Returns (ret_err fr).

Inductive Event : Type :=
| EvAddOnClose (f : EventFunc)
| EvSetContextValue (k : key) (v : val)
| EvCancel (by_ : Actor)                 (* s.cancel() *)
| EvParentCancel (id : nat)
| EvNewTimer (d : Z)
| EvTimerReset (d : Z)
| EvTimerStop (by_ : Actor)
| EvTimerFire                            (* the runtime sends on timer.C *)
| EvTimerRecv                            (* <-timer.C *)
| EvTick (d : Z)                         (* d nanoseconds pass *)
| EvRead (n : Z) (e : error)             (* ReadWithContext returned *)
| EvProcess (n : Z) (e : error)          (* cc.Process returned *)
| EvLoopExit (fr : frame)                (* the body of Run is left *)
| EvPop (fs : list EventFunc)            (* popOnClose returned fs *)
| EvHook (f : EventFunc)                 (* f() *)
| EvConnClose (e : error)                (* s.connection.Close() *)
| EvWrite (c : context) (data : bytes) (e : error)
| EvLog.

(** Program points of [Run]; the line numbers are those of
    [dtls/session.go]. *)
Inductive RunPC : Type :=
| RunCreated                                  (* Run not called yet *)
| RunArmTimer                                 (* 122-135 *)
| RunRead                                     (* 139, in ReadWithContext *)
| RunReset (readLen : Z) (err : error)        (* 140 *)
| RunCheck (readLen : Z) (err : error)        (* 142-145 *)
| RunProcess (readLen : Z)                    (* 146, in cc.Process *)
| RunDeferStop (fr : frame)                   (* 124, deferred *)
| RunDeferClose (fr : frame)                  (* 111-114 *)
| RunDeferPop (fr : frame)                    (* 115, 66: popOnClose *)
| RunDeferHooks (fr : frame) (pending : list EventFunc)   (* 66-68 *)
| RunDeferSocket (fr : frame)                 (* 69-72, 116-118 *)
| RunFinished (out : Outcome).

(** Program points of the goroutine of lines 126-135. *)
Inductive GoPC : Type :=
| GoNotStarted
| GoWait                                      (* 128-129: select *)
| GoStop                                      (* 130 *)
| GoClose                                     (* 131 *)
| GoExited.                                   (* 132 *)

(** A [time.Timer]: [armed] while the runtime may still fire it, [when]
    the time at which it expires, [C] its channel of capacity one ([true]
    when it holds a value).  [Stop] and [Reset] leave a value that was
    already sent in the channel. *)
Record Timer : Type := mkTimer {
  armed : bool;
  when : Z;
  C : bool
}.

(** [now] is the monotonic clock, in nanoseconds since [NewSession]. *)
Record World : Type := mkWorld {
  variant : Variant;
  sess : Session;
  cancelled : list nat;
  timer : option Timer;
  now : Z;
  run_pc : RunPC;
  go_pc : GoPC;
  trace : list Event
}.

Definition with_sess (s : Session) (w : World) : World :=
  mkWorld (variant w) s (cancelled w) (timer w) (now w) (run_pc w) (go_pc w)
          (trace w).
Definition with_cancelled (X : list nat) (w : World) : World :=
  mkWorld (variant w) (sess w) X (timer w) (now w) (run_pc w) (go_pc w)
          (trace w).
Definition with_timer (t : option Timer) (w : World) : World :=
  mkWorld (variant w) (sess w) (cancelled w) t (now w) (run_pc w) (go_pc w)
          (trace w).
Definition with_now (n : Z) (w : World) : World :=
  mkWorld (variant w) (sess w) (cancelled w) (timer w) n (run_pc w) (go_pc w)
          (trace w).
Definition goto (pc : RunPC) (w : World) : World :=
  mkWorld (variant w) (sess w) (cancelled w) (timer w) (now w) pc (go_pc w)
          (trace w).
Definition go_goto (pc : GoPC) (w : World) : World :=
  mkWorld (variant w) (sess w) (cancelled w) (timer w) (now w) (run_pc w) pc
          (trace w).
Definition emit (e : Event) (w : World) : World :=
  mkWorld (variant w) (sess w) (cancelled w) (timer w) (now w) (run_pc w)
          (go_pc w) (trace w ++ [e]).

(** ** time *)

Definition Second : Z := 1000000000.          (* time.Duration, nanoseconds *)
Definition timeout : Z := Second * 300.

(** [time.NewTimer(d)]: the timer expires [d] from now. *)
Definition NewTimer (d : Z) (w : World) : World :=
  emit (EvNewTimer d) (with_timer (Some (mkTimer true (now w + d) false)) w).

(** [timer.Reset(d)] *)
Definition timer_Reset (d : Z) (w : World) : option World :=
  match timer w with
  | Some t =>
      Some (emit (EvTimerReset d)
                 (with_timer (Some (mkTimer true (now w + d) (C t))) w))
  | None => None
  end.

(** [timer.Stop()] *)
Definition timer_Stop (by_ : Actor) (w : World) : option World :=
  match timer w with
  | Some t =>
      Some (emit (EvTimerStop by_)
                 (with_timer (Some (mkTimer false (when t) (C t))) w))
  | None => None
  end.

(** The runtime fires an armed timer, not before it expires: a send on [C]
    that does not block. *)
Definition timer_fire (w : World) : option World :=
  match timer w with
  | Some t =>
      if (armed t && (when t <=? now w)%Z)%bool
      then Some (emit EvTimerFire
                      (with_timer (Some (mkTimer false (when t) true)) w))
      else None
  | None => None
  end.

(** [<-timer.C] *)
Definition timer_recv (w : World) : option World :=
  match timer w with
  | Some t =>
      if C t
      then Some (emit EvTimerRecv
                      (with_timer (Some (mkTimer (armed t) (when t) false)) w))
      else None
  | None => None
  end.

(** Time passes. *)
Definition tick (d : Z) (w : World) : option World :=
  if (0 <=? d)%Z
  then Some (emit (EvTick d) (with_now (now w + d)%Z w))
  else None.

(** ** Methods that act on the world *)

Definition Close (by_ : Actor) (w : World) : World * error :=
  (emit (EvCancel by_)
        (with_cancelled (call_cancel (cancel (sess w)) (cancelled w)) w),
   None).

Definition WriteWithContext (c : context) (data : bytes) (answer : option nat)
    (w : World) : World * error :=
  let e := transport_error answer in
  (emit (EvWrite c data e) w, e).

Definition log_Printf (w : World) : World :=
  match variant w with
  | SessionGo => w
  | Part000 => emit EvLog w
  end.

Definition WriteMessage (req : Message) (answer : option nat) (w : World)
    : World * error :=
  let (data, err) := Marshal req in
  match err with
  | Some e => (w, Some (Errorf "cannot marshal: %w" e))
  | None => WriteWithContext (msgCtx req) data answer (log_Printf w)
  end.

(** ** Transitions *)

Inductive Action : Type :=
| ARun                                        (* next statement of Run *)
| AReadReturns (n : Z) (e : option nat)       (* ReadWithContext answers *)
| AProcessReturns (e : option nat)            (* cc.Process answers *)
| AConnCloseReturns (e : option nat)          (* connection.Close answers *)
| ATimerGo                                    (* next statement of the timer goroutine *)
| ATimerFire                                  (* the runtime fires the timer *)
| ATick (d : Z)                               (* d nanoseconds pass *)
| ACallClose
| ACallAddOnClose (f : EventFunc)
| ACallSetContextValue (k : key) (v : val)
| ACallWriteMessage (req : Message) (answer : option nat)
| AParentCancel (id : nat).                   (* the owner of an ancestor context cancels it *)

(** Leaving the body of [Run]: the deferred calls run last-in first-out,
    [timer.Stop] (line 124) before the cleanup closure (lines 110-119). *)
Definition unwind (timer_deferred : bool) (fr : frame) (w : World) : World :=
  let w := emit (EvLoopExit fr) w in
  if timer_deferred then goto (RunDeferStop fr) w else goto (RunDeferClose fr) w.

Definition has_timer (w : World) : bool :=
  match variant w with
  | SessionGo => true
  | Part000 => false
  end.

Definition Run (a : Action) (w : World) : option World :=
  match run_pc w, a with
  | RunCreated, ARun =>
      (* defer func() {...}(); m := make([]byte, s.maxMessageSize) *)
      if (maxMessageSize (sess w) <? 0)%Z
      then Some (unwind false (mkFrame None true) w)
      else Some (goto (if has_timer w then RunArmTimer else RunRead) w)
  | RunArmTimer, ARun =>
      (* timer := time.NewTimer(timeout); defer timer.Stop(); go func() {...}() *)
      Some (goto RunRead (go_goto GoWait (NewTimer timeout w)))
  | RunRead, AReadReturns n e =>
      let err := transport_error e in
      let w := emit (EvRead n err) w in
      Some (goto (if has_timer w then RunReset n err else RunCheck n err) w)
  | RunReset n err, ARun =>
      match timer_Reset timeout w with
      | Some w => Some (goto (RunCheck n err) w)
      | None => None
      end
  | RunCheck n err, ARun =>
      match err with
      | Some _ => Some (unwind (has_timer w) (mkFrame err false) w)
      | None =>
          (* readBuf = readBuf[:readLen] *)
          if ((0 <=? n) && (n <=? maxMessageSize (sess w)))%Z
          then Some (goto (RunProcess n) (log_Printf w))
          else Some (unwind (has_timer w) (mkFrame None true) w)
      end
  | RunProcess n, AProcessReturns e =>
      let err := process_error e in
      let w := emit (EvProcess n err) w in
      match err with
      | Some _ => Some (unwind (has_timer w) (mkFrame err false) w)
      | None => Some (goto RunRead w)
      end
  | RunDeferStop fr, ARun =>
      match timer_Stop RunLoop w with
      | Some w => Some (goto (RunDeferClose fr) w)
      | None => None
      end
  | RunDeferClose fr, ARun =>
      let (w, err1) := Close RunLoop w in
      Some (goto (RunDeferPop (mkFrame (or_else (ret_err fr) err1) (panicking fr))) w)
  | RunDeferPop fr, ARun =>
      let (fs, s) := popOnClose (sess w) in
      Some (goto (RunDeferHooks fr fs) (emit (EvPop fs) (with_sess s w)))
  | RunDeferHooks fr (f :: rest), ARun =>
      Some (goto (RunDeferHooks fr rest) (emit (EvHook f) w))
  | RunDeferHooks fr [], ARun =>
      match variant w with
      | SessionGo => Some (goto (RunDeferSocket fr) w)
      | Part000 => Some (goto (RunFinished (outcome fr)) w)
      end
  | RunDeferSocket fr, ARun =>
      if closeSocket (sess w) then None
      else
        let err1 : error := None in
        Some (goto (RunFinished (outcome (mkFrame (or_else (ret_err fr) err1) (panicking fr)))) w)
  | RunDeferSocket fr, AConnCloseReturns e =>
      if closeSocket (sess w) then
        let err1 := transport_error e in
        Some (goto (RunFinished (outcome (mkFrame (or_else (ret_err fr) err1) (panicking fr))))
                   (emit (EvConnClose err1) w))
      else None
  | _, _ => None
  end.

(** The goroutine of lines 126-135. *)
Definition idle_goroutine (w : World) : option World :=
  match go_pc w with
  | GoWait =>
      match timer_recv w with
      | Some w => Some (go_goto GoStop w)
      | None => None
      end
  | GoStop =>
      match timer_Stop IdleTimer w with
      | Some w => Some (go_goto GoClose w)
      | None => None
      end
  | GoClose => Some (go_goto GoExited (fst (Close IdleTimer w)))
  | GoNotStarted | GoExited => None
  end.

Definition step (a : Action) (w : World) : option World :=
  match a with
  | ARun | AReadReturns _ _ | AProcessReturns _ | AConnCloseReturns _ => Run a w
  | ATimerGo => idle_goroutine w
  | ATimerFire => timer_fire w
  | ATick d => tick d w
  | ACallClose => Some (fst (Close Caller w))
  | ACallAddOnClose f =>
      Some (emit (EvAddOnClose f) (with_sess (AddOnClose f (sess w)) w))
  | ACallSetContextValue k v =>
      (* a panic of context.WithValue unwinds the caller and leaves the
         session as it is *)
      match variant w with
      | SessionGo =>
          match SetContextValue k v (sess w) with
          | Some s => Some (emit (EvSetContextValue k v) (with_sess s w))
          | None => Some w
          end
      | Part000 => None
      end
  | ACallWriteMessage req answer => Some (fst (WriteMessage req answer w))
  | AParentCancel id =>
      if Nat.eqb id (cancel (sess w)) then None
      else Some (emit (EvParentCancel id)
                      (with_cancelled (call_cancel id (cancelled w)) w))
  end.

Fixpoint exec (sch : list Action) (w : World) : option World :=
  match sch with
  | [] => Some w
  | a :: rest =>
      match step a w with
      | Some w' => exec rest w'
      | None => None
      end
  end.

(** The world after [NewSession]. *)
Definition boot (v : Variant) (parent : context) (conn : nat)
    (maxMessageSize : Z) (closeSocket : bool) : World :=
  mkWorld v
          (NewSession parent conn maxMessageSize
                      (match v with SessionGo => closeSocket | Part000 => false end))
          [] None 0%Z RunCreated GoNotStarted [].

Definition reachable_from (w0 w : World) : Prop :=
  exists sch, exec sch w0 = Some w.

(** [close] (lines 65-73) when nothing else happens in between: the
    registry is drained, the hooks are called in order, and the transport
    is closed if [closeSocket] is set; [answer] is what
    [connection.Close] returns.  In [Run] each of these calls is a
    transition of its own (the program points [RunDeferPop],
    [RunDeferHooks] and [RunDeferSocket]); [cleanup_runs_close] relates
    the two. *)
Definition call_hooks (fs : list EventFunc) (w : World) : World :=
  fold_left (fun w f => emit (EvHook f) w) fs w.

Definition closes_socket (w : World) : bool :=
  match variant w with
  | SessionGo => closeSocket (sess w)
  | Part000 => false
  end.

Definition close (answer : option nat) (w : World) : World * error :=
  let (fs, s) := popOnClose (sess w) in
  let w := call_hooks fs (emit (EvPop fs) (with_sess s w)) in
  if closes_socket w
  then let e := transport_error answer in (emit (EvConnClose e) w, e)
  else (w, None).

(** The transitions of [Run] that make up one call of [close]. *)
Definition close_schedule (answer : option nat) (w : World) : list Action :=
  ARun :: repeat ARun (length (onClose (sess w)))
       ++ ARun :: match variant w with
                  | SessionGo =>
                      [if closeSocket (sess w) then AConnCloseReturns answer else ARun]
                  | Part000 => []
                  end.

(** ** Observations on traces *)

Definition registered (t : list Event) : list EventFunc :=
  flat_map (fun e => match e with EvAddOnClose f => [f] | _ => [] end) t.

Definition hooks_fired (t : list Event) : list EventFunc :=
  flat_map (fun e => match e with EvHook f => [f] | _ => [] end) t.

Definition pops (t : list Event) : list (list EventFunc) :=
  flat_map (fun e => match e with EvPop fs => [fs] | _ => [] end) t.

Definition conn_closes (t : list Event) : list error :=
  flat_map (fun e => match e with EvConnClose e => [e] | _ => [] end) t.

Definition exits (t : list Event) : list frame :=
  flat_map (fun e => match e with EvLoopExit fr => [fr] | _ => [] end) t.

Definition cancels (t : list Event) : list Actor :=
  flat_map (fun e => match e with EvCancel a => [a] | _ => [] end) t.

(** The answers of the transport reads and of the processor, in order. *)
Definition io_results (t : list Event) : list error :=
  flat_map (fun e => match e with
                     | EvRead _ r | EvProcess _ r => [r]
                     | _ => []
                     end) t.

(** The events of the deferred cleanup of [Run] (lines 110-119). *)
Definition is_cleanup (e : Event) : bool :=
  match e with
  | EvCancel RunLoop | EvPop _ | EvHook _ | EvConnClose _ => true
  | _ => false
  end.

Definition cleanup_view (t : list Event) : list Event := filter is_cleanup t.

Definition finished (w : World) : bool :=
  match run_pc w with
  | RunFinished _ => true
  | _ => false
  end.

Definition count (p : Event -> bool) (t : list Event) : nat :=
  length (filter p t).

Definition is_new_timer (e : Event) : bool :=
  match e with EvNewTimer _ => true | _ => false end.
Definition is_reset (e : Event) : bool :=
  match e with EvTimerReset _ => true | _ => false end.
Definition is_fire (e : Event) : bool :=
  match e with EvTimerFire => true | _ => false end.
Definition is_recv (e : Event) : bool :=
  match e with EvTimerRecv => true | _ => false end.
Definition is_read (e : Event) : bool :=
  match e with EvRead _ _ => true | _ => false end.
Definition is_idle_cancel (e : Event) : bool :=
  match e with EvCancel IdleTimer => true | _ => false end.
Definition is_write (e : Event) : bool :=
  match e with EvWrite _ _ _ => true | _ => false end.

Definition is_arm (e : Event) : bool :=
  match e with EvNewTimer _ | EvTimerReset _ => true | _ => false end.

(** The clock read off a trace: the time that has passed, and the time at
    which the timer was last armed ([NewTimer] or [Reset]). *)
Definition clock_step (st : Z * Z) (e : Event) : Z * Z :=
  match e with
  | EvTick d => (fst st + d, snd st)%Z
  | EvNewTimer _ | EvTimerReset _ => (fst st, fst st)
  | _ => st
  end.

Definition clock_of (t : list Event) : Z * Z := fold_left clock_step t (0, 0)%Z.

Definition elapsed (t : list Event) : Z := fst (clock_of t).

Definition armed_at (t : list Event) : Z := snd (clock_of t).

(** Time does not go back. *)
Definition ticks_ok (t : list Event) : Prop :=
  forall a d b, t = a ++ EvTick d :: b -> (0 <= d)%Z.

(** The answer that made the loop of [Run] return. *)
Definition last_io (t : list Event) : error := last (io_results t) None.

Fixpoint root (c : context) : context :=
  match c with
  | valueCtx p _ _ => root p
  | _ => c
  end.

Definition pending_reset (pc : RunPC) : nat :=
  match pc with
  | RunReset _ _ => 1
  | _ => 0
  end.

(** The program points of [Run] after its deferred [timer.Stop()]. *)
Definition stopped (pc : RunPC) : bool :=
  match pc with
  | RunDeferClose _ | RunDeferPop _ | RunDeferHooks _ _ | RunDeferSocket _
  | RunFinished _ => true
  | _ => false
  end.

(** The program points that only the session with a timer has. *)
Definition timer_pc (pc : RunPC) : bool :=
  match pc with
  | RunArmTimer | RunReset _ _ | RunDeferStop _ => true
  | _ => false
  end.

(** The program points between the creation of the timer and the
    deferred [timer.Stop()]. *)
Definition in_loop (pc : RunPC) : bool :=
  match pc with
  | RunRead | RunReset _ _ | RunCheck _ _ | RunProcess _ | RunDeferStop _ => true
  | _ => false
  end.

(** ** Invariants

    What holds in every world that an execution reaches; each is kept by
    every transition. *)

(** What the program point of [Run] says about the trace and about the
    hook registry. *)
Definition run_inv (w : World) : Prop :=
  let t := trace w in
  match run_pc w with
  | RunCreated | RunArmTimer | RunRead | RunReset _ _ | RunCheck _ _
  | RunProcess _ =>
      exits t = [] /\ cleanup_view t = [] /\ onClose (sess w) = registered t
  | RunDeferStop fr | RunDeferClose fr =>
      exits t = [fr] /\ cleanup_view t = [] /\ onClose (sess w) = registered t
  | RunDeferPop fr =>
      exits t = [fr] /\ cleanup_view t = [EvCancel RunLoop] /\
      onClose (sess w) = registered t
  | RunDeferHooks fr pending =>
      exits t = [fr] /\
      cleanup_view t =
        EvCancel RunLoop :: EvPop (hooks_fired t ++ pending)
                         :: map EvHook (hooks_fired t) /\
      registered t = (hooks_fired t ++ pending) ++ onClose (sess w)
  | RunDeferSocket fr =>
      variant w = SessionGo /\
      exits t = [fr] /\
      cleanup_view t =
        EvCancel RunLoop :: EvPop (hooks_fired t) :: map EvHook (hooks_fired t) /\
      registered t = hooks_fired t ++ onClose (sess w)
  | RunFinished out =>
      exists fr,
        exits t = [fr] /\
        cleanup_view t =
          EvCancel RunLoop :: EvPop (hooks_fired t)
                           :: map EvHook (hooks_fired t)
                           ++ map EvConnClose (conn_closes t) /\
        registered t = hooks_fired t ++ onClose (sess w) /\
        (if closes_socket w
         then exists e, conn_closes t = [e] /\
                        out = outcome (mkFrame (or_else (ret_err fr) e) (panicking fr))
         else conn_closes t = [] /\ out = outcome fr)
  end.

(** The error with which the loop of [Run] returns is the answer of its
    last read or of its last call of [Process], and it is not nil. *)
Definition error_inv (w : World) : Prop :=
  let t := trace w in
  match run_pc w with
  | RunReset _ err | RunCheck _ err => last_io t = err
  | _ =>
      forall fr, In fr (exits t) -> panicking fr = false ->
                 ret_err fr = last_io t /\ ret_err fr <> None
  end.

(** Receptions from [timer.C] and calls of [Close] that the goroutine has
    made when it is at a program point. *)
Definition recv_of (pc : GoPC) : nat :=
  match pc with
  | GoNotStarted | GoWait => 0
  | GoStop | GoClose | GoExited => 1
  end.

Definition idle_cancels_of (pc : GoPC) : nat :=
  match pc with
  | GoExited => 1
  | _ => 0
  end.

(** The timer exists exactly when its goroutine has been started; the
    resets follow the reads; after the deferred [timer.Stop()] the timer
    is not armed; the goroutine receives what the runtime sent. *)
Definition timer_inv (w : World) : Prop :=
  let t := trace w in
  match timer w with
  | None =>
      go_pc w = GoNotStarted /\
      count is_new_timer t = 0 /\ count is_reset t = 0 /\ count is_fire t = 0 /\
      (timer_pc (run_pc w) = true -> variant w = SessionGo) /\
      (variant w = SessionGo ->
       count is_read t = 0 /\ in_loop (run_pc w) = false)
  | Some tm =>
      variant w = SessionGo /\ go_pc w <> GoNotStarted /\
      count is_new_timer t = 1 /\
      run_pc w <> RunCreated /\ run_pc w <> RunArmTimer /\
      count is_reset t + pending_reset (run_pc w) = count is_read t /\
      (stopped (run_pc w) = true -> armed tm = false) /\
      count is_recv t + (if C tm then 1 else 0) <= count is_fire t /\
      (count is_fire t = 0 \/ C tm = true \/ 0 < count is_recv t)
  end /\
  count is_recv t = recv_of (go_pc w) /\
  count is_idle_cancel t = idle_cancels_of (go_pc w).

(** The clock of the world is the clock of its trace, and the timer
    expires one [timeout] after it was last armed. *)
Definition clock_inv (w : World) : Prop :=
  now w = elapsed (trace w) /\
  (armed_at (trace w) <= elapsed (trace w))%Z /\
  match timer w with
  | Some tm => when tm = (armed_at (trace w) + timeout)%Z
  | None => True
  end.

(** The session's context is a chain of values over the node that
    [NewSession] created; its cancel function has been called exactly when
    the trace holds a call of [Close]. *)
Definition ctx_inv (parent : context) (w : World) : Prop :=
  root (ctx (sess w)) = cancelCtx parent (S (max_id parent)) /\
  cancel (sess w) = S (max_id parent) /\
  (mem (cancel (sess w)) (cancelled w) = true <-> cancels (trace w) <> []).

(** The fields that no method writes. *)
Definition static_inv (w0 w : World) : Prop :=
  variant w = variant w0 /\
  connection (sess w) = connection (sess w0) /\
  maxMessageSize (sess w) = maxMessageSize (sess w0) /\
  closeSocket (sess w) = closeSocket (sess w0) /\
  cancel (sess w) = cancel (sess w0).

(** [event_ok v pre e]: what holds of the events [pre] that precede the
    event [e] in a trace of a session of variant [v]. *)
Definition event_ok (v : Variant) (pre : list Event) (e : Event) : Prop :=
  match e with
  | EvLoopExit fr =>
      exits pre = [] /\ cleanup_view pre = [] /\
      (panicking fr = false -> ret_err fr = last_io pre /\ ret_err fr <> None)
  | EvCancel RunLoop => exits pre <> [] /\ cleanup_view pre = []
  | EvPop fs =>
      exits pre <> [] /\ cleanup_view pre = [EvCancel RunLoop] /\
      fs = registered pre
  | EvHook _ =>
      exits pre <> [] /\ In (EvCancel RunLoop) pre /\ pops pre <> []
  | EvConnClose _ =>
      exits pre <> [] /\ In (EvCancel RunLoop) pre /\ pops pre <> [] /\
      conn_closes pre = []
  | EvRead _ _ =>
      exits pre = [] /\ (v = SessionGo -> count is_new_timer pre = 1)
  | EvProcess _ _ => exits pre = []
  | EvNewTimer d =>
      d = timeout /\ count is_read pre = 0 /\ count is_new_timer pre = 0
  | EvTimerReset d =>
      d = timeout /\ count is_reset pre + 1 = count is_read pre
  | EvTimerFire =>
      count is_new_timer pre = 1 /\
      (armed_at pre + timeout <= elapsed pre)%Z
  | EvTick d => (0 <= d)%Z
  | EvTimerRecv => count is_recv pre = 0 /\ 0 < count is_fire pre
  | EvCancel IdleTimer =>
      count is_recv pre = 1 /\ 0 < count is_fire pre /\
      count is_idle_cancel pre = 0
  | _ => True
  end.

Definition trace_ok (v : Variant) (t : list Event) : Prop :=
  forall pre e post, t = pre ++ e :: post -> event_ok v pre e.

(** Whether a session of variant [v] closes its transport. *)
Definition closes (v : Variant) (closeSocket : bool) : bool :=
  match v with
  | SessionGo => closeSocket
  | Part000 => false
  end.

Record Inv (v : Variant) (parent : context) (cs : bool) (w : World) : Prop := {
  inv_run : run_inv w;
  inv_error : error_inv w;
  inv_timer : timer_inv w;
  inv_clock : clock_inv w;
  inv_ctx : ctx_inv parent w;
  inv_variant : variant w = v;
  inv_closes : closes_socket w = closes v cs;
  inv_trace : trace_ok v (trace w)
}.

(** ** Errors of the cleanup *)

(** The first error of a list that is not [nil]. *)
Fixpoint first_non_nil (es : list error) : error :=
  match es with
  | [] => None
  | e :: es => or_else e (first_non_nil es)
  end.

(** The error that [WriteMessage] makes of a failure of [Marshal]. *)
Definition is_encoding_error (e : error) : bool :=
  match e with
  | Some (Errorf format (ErrMarshal _)) => String.eqb format "cannot marshal: %w"
  | _ => false
  end.

(** ** Readings of the specification that the code does not follow *)

(** The answers of the reads, in order. *)
Definition read_results (t : list Event) : list error :=
  flat_map (fun e => match e with EvRead _ r => [r] | _ => [] end) t.

(** The timer is reset only after a read that succeeded. *)
Definition resets_only_after_successful_reads (t : list Event) : Prop :=
  forall pre d post,
    t = pre ++ EvTimerReset d :: post -> last (read_results pre) None = None.

(** A hook passed to [AddOnClose] is called at once. *)
Definition late_hook_runs (w : World) (f : EventFunc) : Prop :=
  forall w', step (ACallAddOnClose f) w = Some w' -> In f (hooks_fired (trace w')).

(** [Done] is signalled exactly when [Close] has been called or [Run] has
    returned. *)
Definition done_iff_closed_or_returned (w : World) : Prop :=
  Done (cancelled w) (sess w) = true <->
  cancels (trace w) <> [] \/ finished w = true.

(** [SetContextValue] binds any key. *)
Definition set_then_get (k : key) (v : val) (s : Session) : Prop :=
  exists s', SetContextValue k v s = Some s' /\ Value (Context s') k = v.

(** ** Scenarios *)

(** A session on a transport with [maxMessageSize = 64] and
    [closeSocket = true], under [context.Background()]. *)
Definition session64 : World := boot SessionGo emptyCtx 0 64 true.

(** The world that a schedule leads to. *)
Definition run_of (sch : list Action) (w0 : World) : World :=
  match exec sch w0 with
  | Some w => w
  | None => w0
  end.

(** Two hooks are registered, [Run] reads and processes one datagram, the
    processor rejects the second one, and the transport's [Close] fails
    too. *)
Definition process_error_schedule : list Action :=
  [ACallAddOnClose 1; ACallAddOnClose 2; ARun; ARun;
   AReadReturns 10 None; ARun; ARun; AProcessReturns None;
   AReadReturns 20 None; ARun; ARun; AProcessReturns (Some 5);
   ARun; ARun; ARun; ARun; ARun; ARun; AConnCloseReturns (Some 9)].

Definition process_error_world : World :=
  Eval vm_compute in run_of process_error_schedule session64.

(** [Run] starts, the first read fails, the timer is reset. *)
Definition failed_read_schedule : list Action :=
  [ARun; ARun; AReadReturns 0 (Some 7); ARun].

Definition failed_read_world : World :=
  Eval vm_compute in run_of failed_read_schedule session64.

(** The first read fails and [Run] returns. *)
Definition read_error_schedule : list Action :=
  [ARun; ARun; AReadReturns 0 (Some 7); ARun; ARun; ARun; ARun; ARun; ARun;
   AConnCloseReturns None].

Definition read_error_world : World :=
  Eval vm_compute in run_of read_error_schedule session64.

(** One datagram is read and processed, then nothing arrives for 300
    seconds: the timer fires, its goroutine calls [Close], the pending
    read fails and [Run] returns. *)
Definition idle_timeout_schedule : list Action :=
  [ARun; ARun; AReadReturns 12 None; ARun; ARun; AProcessReturns None;
   ATick timeout; ATimerFire; ATimerGo; ATimerGo; ATimerGo;
   AReadReturns 0 (Some 3); ARun; ARun; ARun; ARun; ARun; ARun;
   AConnCloseReturns None].

Definition idle_timeout_world : World :=
  Eval vm_compute in run_of idle_timeout_schedule session64.

(** A session under a cancellable context whose owner cancels it. *)
Definition child_session : World :=
  boot SessionGo (cancelCtx emptyCtx 0) 0 64 true.

Definition parent_cancelled_world : World :=
  Eval vm_compute in run_of [AParentCancel 0] child_session.

(** When [Run] has finished and the timer has not fired, the goroutine of
    lines 126-135 waits on [timer.C] for ever: nothing that can still
    happen sends on that channel. *)
Definition left_waiting (w : World) : Prop :=
  finished w = true /\ go_pc w = GoWait /\
  exists tm, timer w = Some tm /\ armed tm = false /\ C tm = false.

(** ** The read and process loop, datagram by datagram *)

(** A read length that the slice expression [readBuf[:readLen]] accepts. *)
Definition in_range (mms n : Z) : bool := ((0 <=? n) && (n <=? mms))%Z.

(** The lengths of the reads that succeeded with a length in range. *)
Definition ok_reads (mms : Z) (t : list Event) : list Z :=
  flat_map (fun e => match e with
                     | EvRead n None => if in_range mms n then [n] else []
                     | _ => []
                     end) t.

(** The lengths of the slices handed to [cc.Process]. *)
Definition processed (t : list Event) : list Z :=
  flat_map (fun e => match e with EvProcess n _ => [n] | _ => [] end) t.

(** The datagram that [Run] holds and has not yet seen [Process] return
    for. *)
Definition pending_datagram (mms : Z) (pc : RunPC) : list Z :=
  match pc with
  | RunReset n None | RunCheck n None => if in_range mms n then [n] else []
  | RunProcess n => [n]
  | _ => []
  end.

(** The answer of the last read. *)
Definition last_read (t : list Event) : option (Z * error) :=
  last (flat_map (fun e => match e with
                           | EvRead n r => [Some (n, r)]
                           | _ => []
                           end) t) None.

Definition is_transport_error (e : error) : bool :=
  match e with
  | Some (ErrTransport _) => true
  | _ => false
  end.

Definition is_process_error (e : error) : bool :=
  match e with
  | Some (ErrProcess _) => true
  | _ => false
  end.

Definition transport_or_nil (e : error) : bool :=
  match e with
  | None => true
  | Some _ => is_transport_error e
  end.

(** Why the body of [Run] was left with the frame [fr]: a panic of [make],
    a panic of the slice expression, a failed read or a failed [Process]. *)
Definition exit_cause (mms : Z) (t : list Event) (fr : frame) : Prop :=
  match panicking fr, last_read t with
  | true, None => (mms < 0)%Z /\ ret_err fr = None
  | true, Some (n, r) =>
      (0 <= mms)%Z /\ r = None /\ in_range mms n = false /\ ret_err fr = None
  | false, None => False
  | false, Some (n, Some e) =>
      (0 <= mms)%Z /\ ret_err fr = Some e /\ is_transport_error (Some e) = true
  | false, Some (n, None) =>
      (0 <= mms)%Z /\ in_range mms n = true /\ is_process_error (ret_err fr) = true
  end.

Definition loop_inv (w : World) : Prop :=
  let t := trace w in
  let mms := maxMessageSize (sess w) in
  ok_reads mms t = processed t ++ pending_datagram mms (run_pc w) /\
  match run_pc w with
  | RunCreated => last_read t = None
  | RunArmTimer => (0 <= mms)%Z /\ last_read t = None
  | RunRead => (0 <= mms)%Z
  | RunReset n err | RunCheck n err =>
      (0 <= mms)%Z /\ last_read t = Some (n, err) /\ transport_or_nil err = true
  | RunProcess n =>
      (0 <= mms)%Z /\ last_read t = Some (n, None) /\ in_range mms n = true
  | _ => True
  end /\
  match exits t with
  | [] => True
  | fr :: _ => exit_cause mms t fr
  end.

(** ** More observations *)

(** The values that successful calls of [SetContextValue] bound to a key
    that equals [k], oldest first. *)
Definition sets_of (k : key) (t : list Event) : list val :=
  flat_map (fun e => match e with
                     | EvSetContextValue k' v => if key_eqb k' k then [v] else []
                     | _ => []
                     end) t.

(** The cancel functions that the owners of the ancestor contexts called. *)
Definition owner_cancels (t : list Event) : list nat :=
  flat_map (fun e => match e with EvParentCancel i => [i] | _ => [] end) t.

(** The transport writes that the calls of [WriteMessage] in a schedule
    ask for. *)
Definition writes_of (sch : list Action) : list Event :=
  flat_map (fun a => match a with
                     | ACallWriteMessage req answer =>
                         match snd (Marshal req) with
                         | None => [EvWrite (msgCtx req) (fst (Marshal req))
                                            (transport_error answer)]
                         | Some _ => []
                         end
                     | _ => []
                     end) sch.

Definition is_log (e : Event) : bool :=
  match e with EvLog => true | _ => false end.

(** The datagram that has been logged and not yet processed. *)
Definition awaits_process (pc : RunPC) : nat :=
  match pc with
  | RunProcess _ => 1
  | _ => 0
  end.

(** The program points of [Run] after its deferred [s.Close()]. *)
Definition after_cancel (pc : RunPC) : bool :=
  match pc with
  | RunDeferPop _ | RunDeferHooks _ _ | RunDeferSocket _ | RunFinished _ => true
  | _ => false
  end.

(** What the older session logs: one line for each datagram handed to
    [Process], one for each write. *)
Definition log_inv (w : World) : Prop :=
  let t := trace w in
  match variant w with
  | SessionGo => count is_log t = 0
  | Part000 =>
      count is_log t =
      length (processed t) + awaits_process (run_pc w) + count is_write t
  end.

(** ** More scenarios *)



(** A session with a negative [maxMessageSize]. *)
Definition negative_size_session : World := boot SessionGo emptyCtx 0 (-1) true.

Definition make_panic_schedule : list Action :=
  [ACallAddOnClose 4; ARun; ARun; ARun; ARun; ARun; AConnCloseReturns None].

Definition make_panic_world : World :=
  Eval vm_compute in run_of make_panic_schedule negative_size_session.

(** The key 3 is set twice, the key 4 once. *)
Definition set_values_schedule : list Action :=
  [ACallSetContextValue (Key 3) (Val 8); ACallSetContextValue (Key 4) (Val 1);
   ACallSetContextValue (Key 3) (Val 9)].

Definition set_values_world : World :=
  Eval vm_compute in run_of set_values_schedule session64.

(** A session under a cancellable context is closed by a caller. *)
Definition closed_child_world : World :=
  Eval vm_compute in run_of [ACallClose] child_session.

(** Two messages are written, the second one after [Run] has returned; a
    third one cannot be encoded. *)
Definition message (b : Byte.byte) : Message := mkMessage [b] None emptyCtx.

Definition bad_message : Message := mkMessage [] (Some 1) emptyCtx.

Definition writes_schedule : list Action :=
  [ARun; ARun; ACallWriteMessage (message Byte.x01) None;
   ACallWriteMessage bad_message None;
   AReadReturns 0 (Some 7); ARun; ARun; ARun; ARun; ARun; ARun;
   AConnCloseReturns None; ACallWriteMessage (message Byte.x02) (Some 6)].

Definition writes_world : World :=
  Eval vm_compute in run_of writes_schedule session64.

(** The older session reads two datagrams and writes one message. *)
Definition part000_session : World := boot Part000 emptyCtx 0 64 true.

Definition part000_schedule : list Action :=
  [ACallAddOnClose 4; ARun; AReadReturns 3 None; ARun; AProcessReturns None;
   ACallWriteMessage (message Byte.x01) None;
   AReadReturns 5 None; ARun; AProcessReturns (Some 1); ARun; ARun; ARun; ARun].

Definition part000_world : World :=
  Eval vm_compute in run_of part000_schedule part000_session.

(** [Run] is about to call the hook 1. *)
Definition hooks_running_schedule : list Action :=
  [ACallAddOnClose 1; ARun; ARun; AReadReturns 0 (Some 7);
   ARun; ARun; ARun; ARun; ARun].

Definition hooks_running_world : World :=
  Eval vm_compute in run_of hooks_running_schedule session64.

(** * Properties *)

(** ** Schedules *)

Lemma exec_app (sch1 sch2 : list Action) (w : World) :
  exec (sch1 ++ sch2) w =
  match exec sch1 w with
  | Some w' => exec sch2 w'
  | None => None
  end.
Proof.
  revert w. induction sch1 as [|a sch1 IH]; intros w; simpl.
  - reflexivity.
  - destruct (step a w) as [w'|]; [apply IH | reflexivity].
Qed.

Lemma reachable_step (w0 w w' : World) (a : Action) :
  reachable_from w0 w -> step a w = Some w' -> reachable_from w0 w'.
Proof.
  intros [sch H] Hs. exists (sch ++ [a]).
  rewrite exec_app, H. simpl. rewrite Hs. reflexivity.
Qed.

Lemma reachable_trans (w0 w1 w2 : World) :
  reachable_from w0 w1 -> reachable_from w1 w2 -> reachable_from w0 w2.
Proof.
  intros [s1 H1] [s2 H2]. exists (s1 ++ s2). rewrite exec_app, H1. exact H2.
Qed.

(** Induction over the executions that start in [w0]. *)
Lemma reachable_ind (w0 : World) (P : World -> Prop) :
  P w0 ->
  (forall a w w', reachable_from w0 w -> P w -> step a w = Some w' -> P w') ->
  forall w, reachable_from w0 w -> P w.
Proof.
  intros H0 Hstep w [sch Hsch]. revert w Hsch.
  induction sch as [|a sch IH] using rev_ind; intros w Hsch.
  - simpl in Hsch. injection Hsch as <-. exact H0.
  - rewrite exec_app in Hsch.
    destruct (exec sch w0) as [w1|] eqn:E1; [|discriminate].
    simpl in Hsch. destruct (step a w1) as [w2|] eqn:E2; [|discriminate].
    injection Hsch as <-.
    apply (Hstep a w1 w2); [exists sch; exact E1 | apply IH; reflexivity | exact E2].
Qed.

(** ** Rewriting the observations of a trace that grew by one event *)

Lemma cleanup_view_app (t1 t2 : list Event) :
  cleanup_view (t1 ++ t2) = cleanup_view t1 ++ cleanup_view t2.
Proof. apply filter_app. Qed.

Lemma registered_app (t1 t2 : list Event) :
  registered (t1 ++ t2) = registered t1 ++ registered t2.
Proof. apply flat_map_app. Qed.

Lemma hooks_fired_app (t1 t2 : list Event) :
  hooks_fired (t1 ++ t2) = hooks_fired t1 ++ hooks_fired t2.
Proof. apply flat_map_app. Qed.

Lemma pops_app (t1 t2 : list Event) : pops (t1 ++ t2) = pops t1 ++ pops t2.
Proof. apply flat_map_app. Qed.

Lemma conn_closes_app (t1 t2 : list Event) :
  conn_closes (t1 ++ t2) = conn_closes t1 ++ conn_closes t2.
Proof. apply flat_map_app. Qed.

Lemma exits_app (t1 t2 : list Event) : exits (t1 ++ t2) = exits t1 ++ exits t2.
Proof. apply flat_map_app. Qed.

Lemma cancels_app (t1 t2 : list Event) :
  cancels (t1 ++ t2) = cancels t1 ++ cancels t2.
Proof. apply flat_map_app. Qed.

Lemma io_results_app (t1 t2 : list Event) :
  io_results (t1 ++ t2) = io_results t1 ++ io_results t2.
Proof. apply flat_map_app. Qed.

Create Rewrite HintDb trace_rw.
#[local] Hint Rewrite cleanup_view_app registered_app hooks_fired_app pops_app
  conn_closes_app exits_app cancels_app io_results_app
  app_nil_r map_app : trace_rw.

Lemma or_else_nil (e : error) : or_else e None = e.
Proof. destruct e; reflexivity. Qed.

Lemma frame_eta (fr : frame) : mkFrame (ret_err fr) (panicking fr) = fr.
Proof. destruct fr; reflexivity. Qed.

(** Case analysis on one transition: every [match] of [step] is split and
    the resulting world is substituted. *)
Ltac split_step H :=
  repeat match type of H with
         | context [match ?x with _ => _ end] =>
             lazymatch x with
             | context [match _ with _ => _ end] => fail
             | _ => destruct x eqn:?; simpl in H; try discriminate H
             end
         end.

Ltac step_cases w a H :=
  destruct w as [v s X tm clk pc gpc t];
  destruct a; simpl in H;
  repeat (progress unfold Run, idle_goroutine, timer_fire, timer_recv, tick,
            timer_Stop, timer_Reset, unwind, has_timer, log_Printf, NewTimer,
            WriteMessage, WriteWithContext, SetContextValue, WithValue, Close,
            popOnClose, Context in H; simpl in H);
  split_step H;
  try (injection H as <-); simpl in *.

Lemma hooks_fired_cleanup (t : list Event) :
  hooks_fired (cleanup_view t) = hooks_fired t.
Proof.
  induction t as [|e t IH]; simpl; [reflexivity|].
  destruct e as [| | [] | | | | | | | | | | | | | | |]; simpl; congruence.
Qed.

Lemma conn_closes_cleanup (t : list Event) :
  conn_closes (cleanup_view t) = conn_closes t.
Proof.
  induction t as [|e t IH]; simpl; [reflexivity|].
  destruct e as [| | [] | | | | | | | | | | | | | | |]; simpl; congruence.
Qed.

Lemma pops_cleanup (t : list Event) : pops (cleanup_view t) = pops t.
Proof.
  induction t as [|e t IH]; simpl; [reflexivity|].
  destruct e as [| | [] | | | | | | | | | | | | | | |]; simpl; congruence.
Qed.

Lemma hooks_fired_map (l : list EventFunc) : hooks_fired (map EvHook l) = l.
Proof. induction l; simpl; congruence. Qed.

Lemma conn_closes_map_hook (l : list EventFunc) : conn_closes (map EvHook l) = [].
Proof. induction l; simpl; congruence. Qed.

Lemma pops_map_hook (l : list EventFunc) : pops (map EvHook l) = [].
Proof. induction l; simpl; congruence. Qed.

Lemma conn_closes_map (l : list error) : conn_closes (map EvConnClose l) = l.
Proof. induction l; simpl; congruence. Qed.

Lemma hooks_fired_map_close (l : list error) : hooks_fired (map EvConnClose l) = [].
Proof. induction l; simpl; congruence. Qed.

Lemma pops_map_close (l : list error) : pops (map EvConnClose l) = [].
Proof. induction l; simpl; congruence. Qed.

#[local] Hint Rewrite hooks_fired_map conn_closes_map_hook pops_map_hook
  conn_closes_map hooks_fired_map_close pops_map_close : trace_rw.

(** What the cleanup events seen so far say about the hooks and the
    transport. *)
Lemma cleanup_view_facts (t c : list Event) :
  cleanup_view t = c ->
  hooks_fired t = hooks_fired c /\ conn_closes t = conn_closes c /\
  pops t = pops c.
Proof.
  intros <-. now rewrite hooks_fired_cleanup, conn_closes_cleanup, pops_cleanup.
Qed.

Lemma run_inv_boot v parent conn mms cs : run_inv (boot v parent conn mms cs).
Proof. destruct v; cbv; auto. Qed.

Lemma run_inv_step (a : Action) (w w' : World) :
  run_inv w -> step a w = Some w' -> run_inv w'.
Proof.
  intros I H. unfold run_inv in *. step_cases w a H.
  all: subst.
  all: try (destruct pc; simpl in * ).
  all: unfold closes_socket in *; simpl in *.
  all: repeat match goal with
         | H : _ /\ _ |- _ => destruct H
         | H : exists _, _ |- _ => destruct H
         end; subst.
  all: repeat match goal with
         | H : closeSocket _ = _ |- _ => rewrite H in *
         end.
  all: autorewrite with trace_rw; simpl.
  all: rewrite ?or_else_nil, ?frame_eta.
  all: try match goal with
         | H : cleanup_view ?t = ?c |- _ =>
             let F := fresh "F" in
             pose proof (cleanup_view_facts t c H) as F; simpl in F;
             autorewrite with trace_rw in F; simpl in F;
             destruct F as (F1 & F2 & F3)
         end.
  all: repeat match goal with
         | H : exits _ = _ |- _ => rewrite H
         | H : cleanup_view _ = _ |- _ => rewrite H
         | H : conn_closes _ = _ |- _ => rewrite H
         end; simpl.
  all: rewrite <- ?app_assoc, ?app_nil_r in *; simpl in *.
  all: repeat match goal with
         | H : ?x = ?x |- _ => clear H
         | H : hooks_fired _ = [] |- _ => rewrite H in *
         | H : registered _ = _ |- _ => rewrite H
         end; simpl in *.
  all: rewrite <- ?app_assoc, ?app_nil_r in *; simpl in *.
  all: try (intuition congruence).
  all: try solve [eexists; repeat split; eauto; congruence].
  all: try solve [destruct v; try destruct (closeSocket s);
                  repeat match goal with
                         | H : _ /\ _ |- _ => destruct H
                         | H : exists _, _ |- _ => destruct H
                         end; subst;
                  eexists; repeat split; eauto; congruence].
Qed.

Lemma count_app (p : Event -> bool) (t1 t2 : list Event) :
  count p (t1 ++ t2) = count p t1 + count p t2.
Proof. unfold count. now rewrite filter_app, length_app. Qed.

#[local] Hint Rewrite count_app : trace_rw.

Lemma last_io_snoc (t : list Event) (e : Event) :
  last_io (t ++ [e]) =
  match e with
  | EvRead _ r | EvProcess _ r => r
  | _ => last_io t
  end.
Proof.
  unfold last_io. rewrite io_results_app.
  destruct e; simpl; rewrite ?app_nil_r; try reflexivity; apply last_last.
Qed.

#[local] Hint Rewrite last_io_snoc : trace_rw.

(** ** The error that leaves the loop *)

Lemma error_inv_boot v parent conn mms cs : error_inv (boot v parent conn mms cs).
Proof. destruct v; cbv; intros ? []. Qed.

Lemma error_inv_step (a : Action) (w w' : World) :
  run_inv w -> error_inv w -> step a w = Some w' -> error_inv w'.
Proof.
  intros R I H. unfold error_inv, run_inv in *. step_cases w a H.
  all: subst.
  all: try (destruct pc; simpl in * ).
  all: autorewrite with trace_rw; simpl.
  all: repeat match goal with
         | H : _ /\ _ |- _ => destruct H
         | H : exists _, _ |- _ => destruct H
         end.
  all: try match goal with
         | H : exits _ = _ |- _ => rewrite H in *
         end; simpl in *.
  all: try solve [auto | congruence | intros ? []].
  all: try solve [intros fr0 [<- | []]; simpl; intros _; split; congruence].
  all: try solve [intros fr0 [<- | []]; simpl; intros; congruence].
Qed.

(** ** The timer and its goroutine *)

Lemma count_one (p : Event -> bool) (e : Event) :
  count p [e] = if p e then 1 else 0.
Proof. unfold count. simpl. destruct (p e); reflexivity. Qed.

#[local] Hint Rewrite count_one : trace_rw.

Lemma timer_inv_boot v parent conn mms cs : timer_inv (boot v parent conn mms cs).
Proof. destruct v; cbv; intuition congruence. Qed.

Lemma timer_inv_step (a : Action) (w w' : World) :
  timer_inv w -> step a w = Some w' -> timer_inv w'.
Proof.
  intros I H. unfold timer_inv in *. step_cases w a H.
  all: subst.
  all: autorewrite with trace_rw; simpl.
  all: try (destruct tm as [[a0 d0 c0]|]; simpl in * ).
  all: repeat match goal with
         | H : _ /\ _ |- _ => destruct H
         | H : Some _ = Some _ |- _ => injection H as H; subst
         | H : mkTimer _ _ _ = mkTimer _ _ _ |- _ => injection H as ? ? ?; subst
         end; simpl in *.
  all: try discriminate.
  all: repeat match goal with
         | H : C _ = _ |- _ => rewrite H in *
         | H : armed _ = _ |- _ => rewrite H in *
         end; simpl in *.
  all: rewrite ?Nat.add_0_r.
  all: try solve [repeat split; intros; try assumption; try congruence; try lia].
  all: try solve [intuition (try discriminate; try congruence; try lia)].
  all: try solve [destruct c0; intuition (try discriminate; try congruence; try lia)].
  subst gpc. simpl in *. specialize (H5 eq_refl). destruct (H6 H5) as [R _].
  repeat split; try congruence; try lia.
Qed.

(** ** The clock *)

Lemma clock_of_snoc (t : list Event) (e : Event) :
  clock_of (t ++ [e]) = clock_step (clock_of t) e.
Proof. unfold clock_of. rewrite fold_left_app. reflexivity. Qed.

Lemma elapsed_snoc (t : list Event) (e : Event) :
  elapsed (t ++ [e]) =
  match e with
  | EvTick d => (elapsed t + d)%Z
  | _ => elapsed t
  end.
Proof. unfold elapsed. rewrite clock_of_snoc. destruct e; reflexivity. Qed.

Lemma armed_at_snoc (t : list Event) (e : Event) :
  armed_at (t ++ [e]) =
  match e with
  | EvNewTimer _ | EvTimerReset _ => elapsed t
  | _ => armed_at t
  end.
Proof. unfold armed_at, elapsed. rewrite clock_of_snoc. destruct e; reflexivity. Qed.

#[local] Hint Rewrite elapsed_snoc armed_at_snoc : trace_rw.

Lemma clock_inv_boot v parent conn mms cs : clock_inv (boot v parent conn mms cs).
Proof. destruct v; cbv; intuition congruence. Qed.

Lemma clock_inv_step (a : Action) (w w' : World) :
  clock_inv w -> step a w = Some w' -> clock_inv w'.
Proof.
  intros I H. unfold clock_inv in *. step_cases w a H.
  all: subst.
  all: autorewrite with trace_rw; simpl.
  all: repeat match goal with
         | H : _ /\ _ |- _ => destruct H
         | H : Some _ = Some _ |- _ => injection H as H; subst
         | H : (0 <=? _)%Z = true |- _ => apply Z.leb_le in H
         end; simpl in *.
  all: try solve [repeat split; try assumption; try congruence; try lia].
Qed.

(** ** The context cell *)

Lemma mem_call_cancel (i j : nat) (X : list nat) :
  mem i (call_cancel j X) = Nat.eqb i j || mem i X.
Proof.
  unfold call_cancel. destruct (mem j X) eqn:E; simpl; [|reflexivity].
  destruct (Nat.eqb_spec i j) as [->|]; simpl; [|reflexivity].
  exact E.
Qed.

Lemma ctx_done_root (X : list nat) (c : context) :
  ctx_done X c = ctx_done X (root c).
Proof. induction c; simpl; auto. Qed.

Lemma ctx_inv_boot v parent conn mms cs :
  ctx_inv parent (boot v parent conn mms cs).
Proof. destruct v; cbv -[max_id]; intuition congruence. Qed.

Lemma ctx_inv_step (parent : context) (a : Action) (w w' : World) :
  ctx_inv parent w -> step a w = Some w' -> ctx_inv parent w'.
Proof.
  intros I H. unfold ctx_inv in *. step_cases w a H.
  all: subst.
  all: destruct I as (I1 & I2 & I3).
  all: autorewrite with trace_rw; simpl.
  all: rewrite ?mem_call_cancel, ?Nat.eqb_refl; simpl.
  all: try solve [repeat split; auto; tauto].
  all: try solve [repeat split; auto; try tauto;
                  intros _; intros Habs; apply app_eq_nil in Habs;
                  destruct Habs; discriminate].
  rewrite Nat.eqb_sym, Heqb. simpl. auto.
Qed.

(** ** What never changes *)

Lemma static_inv_step (w0 : World) (a : Action) (w w' : World) :
  static_inv w0 w -> step a w = Some w' -> static_inv w0 w'.
Proof.
  intros I H. unfold static_inv in *. step_cases w a H.
  all: subst; simpl; exact I.
Qed.

Lemma snoc_split (A : Type) (t pre post : list A) (x e : A) :
  t ++ [x] = pre ++ e :: post ->
  (post = [] /\ pre = t /\ e = x) \/
  (exists post', post = post' ++ [x] /\ t = pre ++ e :: post').
Proof.
  intros H. destruct post as [|y post] using rev_ind.
  - left. apply app_inj_tail in H. destruct H as [-> ->]. auto.
  - right. clear IHpost.
    change (pre ++ e :: post ++ [y]) with (pre ++ (e :: post) ++ [y]) in H.
    rewrite app_assoc in H. apply app_inj_tail in H. destruct H as [-> ->].
    exists post. auto.
Qed.

Lemma trace_ok_nil (v : Variant) : trace_ok v [].
Proof. intros [|? ?] ? ? H; discriminate. Qed.

Lemma trace_ok_snoc (v : Variant) (t : list Event) (x : Event) :
  trace_ok v t -> event_ok v t x -> trace_ok v (t ++ [x]).
Proof.
  intros Ht Hx pre e post H.
  apply snoc_split in H. destruct H as [(_ & -> & ->) | (post' & _ & ->)].
  - exact Hx.
  - eapply Ht. reflexivity.
Qed.

Lemma in_cleanup_view (e : Event) (t : list Event) :
  In e (cleanup_view t) -> In e t.
Proof. unfold cleanup_view. rewrite filter_In. tauto. Qed.

Lemma trace_ok_step (a : Action) (w w' : World) :
  run_inv w -> error_inv w -> timer_inv w -> clock_inv w ->
  step a w = Some w' ->
  trace_ok (variant w) (trace w) -> trace_ok (variant w') (trace w').
Proof.
  intros R Er Ti Ck H T. unfold run_inv, error_inv, timer_inv, clock_inv in *.
  step_cases w a H.
  all: subst; simpl; try exact T.
  all: repeat apply trace_ok_snoc; try exact T; simpl; try exact I.
  all: repeat match goal with
         | H : _ /\ _ |- _ => destruct H
         | H : exists _, _ |- _ => destruct H
         end.
  all: try match goal with
         | H : cleanup_view ?t = ?c |- _ =>
             let F := fresh "F" in
             pose proof (cleanup_view_facts t c H) as F; simpl in F;
             autorewrite with trace_rw in F; simpl in F;
             destruct F as (F1 & F2 & F3)
         end.
  all: try solve [repeat split; auto; try congruence; try lia].
  all: autorewrite with trace_rw; simpl.
  all: try (destruct tm as [[a0 d0 c0]|]; simpl in * ).
  all: repeat match goal with
         | H : _ /\ _ |- _ => destruct H
         | H : Some _ = Some _ |- _ => injection H as H; subst
         | H : C _ = _ |- _ => rewrite H in *
         | H : (_ && _)%bool = true |- _ => apply andb_true_iff in H
         | H : (_ <=? _)%Z = true |- _ => apply Z.leb_le in H
         end; simpl in *; try discriminate.
  all: try solve [repeat split; auto; try congruence; try lia;
                  try (intuition (congruence || lia));
                  apply in_cleanup_view;
                  match goal with H : cleanup_view _ = _ |- _ => rewrite H end;
                  left; reflexivity].
Qed.

(** ** Reachable worlds *)

Lemma reachable_static (w0 w : World) :
  reachable_from w0 w -> static_inv w0 w.
Proof.
  revert w. apply reachable_ind.
  - repeat split.
  - intros a w w' _. apply static_inv_step.
Qed.

Lemma reachable_Inv v parent conn mms cs w :
  reachable_from (boot v parent conn mms cs) w -> Inv v parent cs w.
Proof.
  revert w. apply reachable_ind.
  - split.
    + apply run_inv_boot.
    + apply error_inv_boot.
    + apply timer_inv_boot.
    + apply clock_inv_boot.
    + apply ctx_inv_boot.
    + reflexivity.
    + destruct v; reflexivity.
    + apply trace_ok_nil.
  - intros a w w' Hr [I1 I2 I3 Ic I4 I5 I6 I7] Hs.
    destruct (reachable_static _ _ (reachable_step _ _ _ a Hr Hs)) as (Sv & _ & _ & Sc & _).
    simpl in Sv.
    split.
    + eapply run_inv_step; eassumption.
    + eapply error_inv_step; eassumption.
    + eapply timer_inv_step; eassumption.
    + eapply clock_inv_step; eassumption.
    + eapply ctx_inv_step; eassumption.
    + exact Sv.
    + unfold closes_socket. rewrite Sv, Sc. destruct v; reflexivity.
    + rewrite <- Sv. rewrite <- I5 in I7.
      eapply trace_ok_step; eassumption.
Qed.

Arguments reachable_Inv {v parent conn mms cs w} _.

(** The scenario of the processor that fails on the second datagram. *)
Example process_error_trace :
  trace process_error_world =
  [EvAddOnClose 1; EvAddOnClose 2; EvNewTimer timeout;
   EvRead 10 None; EvTimerReset timeout; EvProcess 10 None;
   EvRead 20 None; EvTimerReset timeout; EvProcess 20 (Some (ErrProcess 5));
   EvLoopExit (mkFrame (Some (ErrProcess 5)) false);
   EvTimerStop RunLoop; EvCancel RunLoop; EvPop [1; 2]; EvHook 1; EvHook 2;
   EvConnClose (Some (ErrTransport 9))].
Proof. reflexivity. Qed.

Lemma process_error_reachable : reachable_from session64 process_error_world.
Proof. exists process_error_schedule. reflexivity. Qed.

Lemma in_exits (fr : frame) (t : list Event) :
  In fr (exits t) <-> In (EvLoopExit fr) t.
Proof.
  unfold exits. rewrite in_flat_map. split.
  - intros (e & He & Hin). destruct e; simpl in Hin; try contradiction.
    destruct Hin as [<- | []]. exact He.
  - intros H. exists (EvLoopExit fr). simpl. auto.
Qed.

Lemma in_cancels (a : Actor) (t : list Event) :
  In a (cancels t) <-> In (EvCancel a) t.
Proof.
  unfold cancels. rewrite in_flat_map. split.
  - intros (e & He & Hin). destruct e; simpl in Hin; try contradiction.
    destruct Hin as [<- | []]. exact He.
  - intros H. exists (EvCancel a). simpl. auto.
Qed.

(** ** [close], in one piece and in the transitions of [Run] *)

Lemma call_hooks_eq (fs : list EventFunc) (w : World) :
  call_hooks fs w =
  mkWorld (variant w) (sess w) (cancelled w) (timer w) (now w) (run_pc w)
          (go_pc w) (trace w ++ map EvHook fs).
Proof.
  revert w. induction fs as [|f fs IH]; intros w; simpl.
  - destruct w; simpl. rewrite app_nil_r. reflexivity.
  - rewrite IH. simpl. rewrite <- app_assoc. reflexivity.
Qed.

Lemma call_hooks_goto (fs : list EventFunc) (pc : RunPC) (w : World) :
  call_hooks fs (goto pc w) = goto pc (call_hooks fs w).
Proof. rewrite !call_hooks_eq. reflexivity. Qed.

Lemma hooks_loop (fs : list EventFunc) (w : World) (fr : frame) :
  run_pc w = RunDeferHooks fr fs ->
  exec (repeat ARun (length fs)) w =
  Some (goto (RunDeferHooks fr []) (call_hooks fs w)).
Proof.
  revert w. induction fs as [|f fs IH]; intros w Hpc; simpl.
  - destruct w; simpl in *. subst. reflexivity.
  - unfold Run. rewrite Hpc. rewrite IH by reflexivity.
    rewrite call_hooks_goto. reflexivity.
Qed.

(** From line 115 on, the transitions of [Run] do what [close] does and
    [Run] finishes with the first error that is not nil. *)
Lemma cleanup_runs_close (answer : option nat) (w : World) (fr : frame) :
  run_pc w = RunDeferPop fr ->
  exec (close_schedule answer w) w =
  Some (goto (RunFinished
                (outcome (mkFrame (or_else (ret_err fr) (snd (close answer w)))
                                  (panicking fr))))
             (fst (close answer w))).
Proof.
  intros Hpc. destruct w as [v s X tm clk pc gpc t]. simpl in Hpc. subst pc.
  unfold close_schedule, close, closes_socket. simpl.
  rewrite exec_app.
  rewrite (hooks_loop (onClose s) _ fr) by reflexivity.
  rewrite !call_hooks_eq. simpl.
  destruct v; simpl.
  - destruct (closeSocket s) eqn:E; simpl; reflexivity.
  - rewrite or_else_nil, frame_eta. reflexivity.
Qed.

(** ** The cleanup of [Run] always completes *)

Lemma finish_from_socket (w : World) (fr : frame) :
  run_pc w = RunDeferSocket fr ->
  exists sch w', exec sch w = Some w' /\ finished w' = true.
Proof.
  intros Hpc. destruct (closeSocket (sess w)) eqn:E.
  - exists [AConnCloseReturns None]. simpl. unfold Run. rewrite Hpc, E.
    eexists. split; reflexivity.
  - exists [ARun]. simpl. unfold Run. rewrite Hpc, E.
    eexists. split; reflexivity.
Qed.

Lemma finish_from_hooks (pending : list EventFunc) (w : World) (fr : frame) :
  run_pc w = RunDeferHooks fr pending ->
  exists sch w', exec sch w = Some w' /\ finished w' = true.
Proof.
  revert w. induction pending as [|f rest IH]; intros w Hpc.
  - destruct (variant w) eqn:V.
    + destruct (finish_from_socket (goto (RunDeferSocket fr) w) fr eq_refl)
        as (sch & w' & Hsch & Hfin).
      exists (ARun :: sch), w'. simpl. unfold Run. rewrite Hpc, V. auto.
    + exists [ARun]. simpl. unfold Run. rewrite Hpc, V.
      eexists. split; reflexivity.
  - destruct (IH (goto (RunDeferHooks fr rest) (emit (EvHook f) w)) eq_refl)
      as (sch & w' & Hsch & Hfin).
    exists (ARun :: sch), w'. simpl. unfold Run. rewrite Hpc. auto.
Qed.

Lemma finish_from_pop (w : World) (fr : frame) :
  run_pc w = RunDeferPop fr ->
  exists sch w', exec sch w = Some w' /\ finished w' = true.
Proof.
  intros Hpc.
  destruct (finish_from_hooks (onClose (sess w))
              (goto (RunDeferHooks fr (onClose (sess w)))
                    (emit (EvPop (onClose (sess w)))
                          (with_sess (snd (popOnClose (sess w))) w)))
              fr eq_refl)
    as (sch & w' & Hsch & Hfin).
  exists (ARun :: sch), w'. simpl. unfold Run. rewrite Hpc. auto.
Qed.

Lemma finish_from_close (w : World) (fr : frame) :
  run_pc w = RunDeferClose fr ->
  exists sch w', exec sch w = Some w' /\ finished w' = true.
Proof.
  intros Hpc.
  destruct (finish_from_pop
              (goto (RunDeferPop (mkFrame (or_else (ret_err fr) None) (panicking fr)))
                    (fst (Close RunLoop w))) _ eq_refl)
    as (sch & w' & Hsch & Hfin).
  exists (ARun :: sch), w'. simpl. unfold Run. rewrite Hpc. auto.
Qed.

Lemma finish_from_stop (w : World) (fr : frame) (tm : Timer) :
  run_pc w = RunDeferStop fr -> timer w = Some tm ->
  exists sch w', exec sch w = Some w' /\ finished w' = true.
Proof.
  intros Hpc Htm.
  destruct (finish_from_close
              (goto (RunDeferClose fr)
                    (emit (EvTimerStop RunLoop)
                          (with_timer (Some (mkTimer false (when tm) (C tm))) w)))
              fr eq_refl)
    as (sch & w' & Hsch & Hfin).
  exists (ARun :: sch), w'. simpl. unfold Run, timer_Stop. rewrite Hpc, Htm. auto.
Qed.

Lemma cleanup_completes v parent conn mms cs w :
  reachable_from (boot v parent conn mms cs) w ->
  exits (trace w) <> [] ->
  exists sch w', exec sch w = Some w' /\ finished w' = true.
Proof.
  intros Hr Hex. destruct (reachable_Inv Hr) as [R _ T _ _ _ _ _].
  unfold run_inv in R. unfold timer_inv in T.
  destruct (run_pc w) eqn:Hpc;
    try (destruct R as (R & _); congruence).
  - destruct (timer w) as [tm|] eqn:Htm.
    + eapply finish_from_stop; eassumption.
    + exfalso. simpl in T. destruct T as ((_ & _ & _ & _ & Tv & Tl) & _).
      destruct (Tl (Tv eq_refl)) as [_ Tl']. discriminate.
  - eapply finish_from_close; eassumption.
  - eapply finish_from_pop; eassumption.
  - eapply finish_from_hooks; eassumption.
  - eapply finish_from_socket; eassumption.
  - exists [], w. split; [reflexivity|]. unfold finished. rewrite Hpc. reflexivity.
Qed.

Arguments cleanup_completes {v parent conn mms cs w} _ _.

(** ** The deferred cleanup of [Run] *)

(** What a finished [Run] leaves in the trace. *)
Lemma finished_shape v parent conn mms cs w out :
  reachable_from (boot v parent conn mms cs) w ->
  run_pc w = RunFinished out ->
  exists fr fs closed body tail,
    trace w = body ++ EvLoopExit fr :: tail /\
    exits body = [] /\ cleanup_view body = [] /\
    (panicking fr = false -> ret_err fr = last_io body /\ ret_err fr <> None) /\
    cleanup_view tail =
      EvCancel RunLoop :: EvPop fs :: map EvHook fs ++ map EvConnClose closed /\
    hooks_fired (trace w) = fs /\ conn_closes (trace w) = closed /\
    registered (trace w) = fs ++ onClose (sess w) /\
    length closed = (if closes v cs then 1 else 0) /\
    out = outcome (mkFrame (or_else (ret_err fr) (hd None closed)) (panicking fr)).
Proof.
  intros Hr Hpc. destruct (reachable_Inv Hr) as [R _ _ _ _ _ Hc T].
  unfold run_inv in R. rewrite Hpc in R.
  destruct R as (fr & Hex & Hcv & Hreg & Hsock).
  assert (Hin : In (EvLoopExit fr) (trace w)).
  { apply in_exits. rewrite Hex. left. reflexivity. }
  apply in_split in Hin. destruct Hin as (body & tail & Ht).
  destruct (T _ _ _ Ht) as (Hb1 & Hb2 & Hb3).
  exists fr, (hooks_fired (trace w)), (conn_closes (trace w)), body, tail.
  repeat split; auto.
  - apply Hb3; assumption.
  - apply Hb3; assumption.
  - rewrite <- Hcv. rewrite Ht, cleanup_view_app, Hb2. reflexivity.
  - rewrite <- Hc. destruct (closes_socket w).
    + destruct Hsock as (e & -> & _). reflexivity.
    + destruct Hsock as (-> & _). reflexivity.
  - destruct (closes_socket w).
    + destruct Hsock as (e & -> & ->). reflexivity.
    + destruct Hsock as (-> & ->). simpl. rewrite or_else_nil, frame_eta.
      reflexivity.
Qed.

Arguments finished_shape {v parent conn mms cs w out} _ _.

(** The hooks that [popOnClose] took are the hooks registered before it. *)
Lemma pop_takes_registered v parent conn mms cs w fs :
  reachable_from (boot v parent conn mms cs) w ->
  In (EvPop fs) (trace w) ->
  exists pre post,
    trace w = pre ++ EvPop fs :: post /\ fs = registered pre /\
    cleanup_view pre = [EvCancel RunLoop] /\ exits pre <> [].
Proof.
  intros Hr Hin. destruct (reachable_Inv Hr) as [_ _ _ _ _ _ _ T].
  apply in_split in Hin. destruct Hin as (pre & post & Ht).
  destruct (T _ _ _ Ht) as (H1 & H2 & H3).
  exists pre, post. auto.
Qed.

Arguments pop_takes_registered {v parent conn mms cs w fs} _ _.

(** C1. Every execution of [Run], whichever way its loop was left (a
    failed read, a failed [Process], a panic), runs the deferred cleanup
    once: once the body is left the cleanup can always be run to its end,
    and in a finished [Run] the cleanup events are, in this order, one
    cancellation of the session context, one drain of the registry that
    takes the hooks registered before it, one call of each drained hook in
    registration order, and one [Close] of the transport exactly when
    [closeSocket] is set.  The value returned is the first error that is
    not nil among the loop's error, the error of the cancellation step and
    the error of the hook and transport step. *)
Theorem C1_cleanup_once_in_order v parent conn mms cs w :
  reachable_from (boot v parent conn mms cs) w ->
  (exits (trace w) <> [] ->
   exists sch w', exec sch w = Some w' /\ finished w' = true) /\
  (forall out, run_pc w = RunFinished out ->
   exists fr fs closed body tail,
     trace w = body ++ EvLoopExit fr :: tail /\
     cleanup_view body = [] /\
     (panicking fr = false -> ret_err fr = last_io body /\ ret_err fr <> None) /\
     cleanup_view tail =
       EvCancel RunLoop :: EvPop fs :: map EvHook fs ++ map EvConnClose closed /\
     (exists pre post, trace w = pre ++ EvPop fs :: post /\ fs = registered pre) /\
     length closed = (if closes v cs then 1 else 0) /\
     out = outcome
             (mkFrame (first_non_nil [ret_err fr; snd (Close RunLoop w); hd None closed])
                      (panicking fr))).
Proof.
  intros Hr. split.
  - apply (cleanup_completes Hr).
  - intros out Hpc.
    destruct (finished_shape Hr Hpc)
      as (fr & fs & closed & body & tail & Ht & Hb1 & Hb2 & Hb3 & Hcv & Hf & Hc & _ & Hl & Ho).
    exists fr, fs, closed, body, tail. repeat split; auto.
    + apply Hb3; assumption.
    + apply Hb3; assumption.
    + assert (Hin : In (EvPop fs) (trace w)).
      { rewrite Ht. apply in_or_app. right. right.
        apply in_cleanup_view. rewrite Hcv. right. left. reflexivity. }
      destruct (pop_takes_registered Hr Hin) as (pre & post & Hp & Hfs & _).
      exists pre, post. auto.
    + simpl. rewrite !or_else_nil. exact Ho.
Qed.

(** C1 at the scenario of the failing processor: [Run] returns the error
    of [Process], not the later error of the transport's [Close]. *)
Lemma C1_witness :
  reachable_from session64 process_error_world /\
  run_pc process_error_world = RunFinished (Returns (Some (ErrProcess 5))) /\
  exists fr fs closed body tail,
    trace process_error_world = body ++ EvLoopExit fr :: tail /\
    cleanup_view body = [] /\
    (panicking fr = false -> ret_err fr = last_io body /\ ret_err fr <> None) /\
    cleanup_view tail =
      EvCancel RunLoop :: EvPop fs :: map EvHook fs ++ map EvConnClose closed /\
    (exists pre post,
       trace process_error_world = pre ++ EvPop fs :: post /\
       fs = registered pre) /\
    length closed = 1 /\
    Returns (Some (ErrProcess 5)) =
    outcome
      (mkFrame
         (first_non_nil
            [ret_err fr; snd (Close RunLoop process_error_world); hd None closed])
         (panicking fr)).
Proof.
  split; [exact process_error_reachable|]. split; [reflexivity|].
  exact (proj2 (C1_cleanup_once_in_order SessionGo emptyCtx 0 64 true
                  process_error_world process_error_reachable)
               (Returns (Some (ErrProcess 5))) eq_refl).
Defined.

(** ** Close hooks *)

Lemma app_eq_app_cases (A : Type) (x1 x2 y1 y2 : list A) :
  x1 ++ x2 = y1 ++ y2 ->
  exists l, (x1 = y1 ++ l /\ y2 = l ++ x2) \/ (y1 = x1 ++ l /\ x2 = l ++ y2).
Proof.
  revert y1. induction x1 as [|a x1 IH]; intros y1 H; simpl in H.
  - exists y1. right. auto.
  - destruct y1 as [|b y1]; simpl in H.
    + exists (a :: x1). left. auto.
    + injection H as -> H. destruct (IH _ H) as (l & [[-> ->] | [-> ->]]).
      * exists l. left. auto.
      * exists l. right. auto.
Qed.

(** C2. When [Run] has finished, the hooks that were called are exactly the
    hooks registered before the drain, each once and in registration
    order.  In particular the hooks registered before termination began
    (before the first cancellation, or before the loop was left) are
    called in that order, none is called in that part of the execution,
    and every call of a hook comes after the context was cancelled and the
    loop was left. *)
Theorem C2_hooks_once_in_registration_order v parent conn mms cs w out :
  reachable_from (boot v parent conn mms cs) w ->
  run_pc w = RunFinished out ->
  exists pre post,
    trace w = pre ++ EvPop (registered pre) :: post /\
    hooks_fired (trace w) = registered pre /\
    hooks_fired pre = [] /\
    (forall p q, trace w = p ++ q -> cancels p = [] \/ exits p = [] ->
       hooks_fired p = [] /\
       exists rest, hooks_fired (trace w) = registered p ++ rest) /\
    (forall p f q, trace w = p ++ EvHook f :: q ->
       cancels p <> [] /\ exits p <> []).
Proof.
  intros Hr Hpc.
  destruct (finished_shape Hr Hpc)
    as (fr & fs & closed & body & tail & Ht & _ & _ & _ & Hcv & Hf & _).
  assert (Hin : In (EvPop fs) (trace w)).
  { rewrite Ht. apply in_or_app. right. right.
    apply in_cleanup_view. rewrite Hcv. right. left. reflexivity. }
  destruct (pop_takes_registered Hr Hin) as (pre & post & Hp & Hfs & Hpre & Hex).
  destruct (cleanup_view_facts _ _ Hpre) as (Hh & _ & _). simpl in Hh.
  assert (Hc : cancels pre <> []).
  { assert (Hi : In RunLoop (cancels pre)).
    { apply in_cancels, in_cleanup_view. rewrite Hpre. left. reflexivity. }
    intros E. rewrite E in Hi. exact Hi. }
  exists pre, post. revert Hf Hp. rewrite Hfs. intros Hf Hp.
  split; [exact Hp|]. split; [exact Hf|]. split; [exact Hh|]. split.
  - intros p q H H0. rewrite Hp in H. apply app_eq_app_cases in H.
    destruct H as (l & [[-> _] | [-> _]]).
    + split.
      * rewrite hooks_fired_app in Hh. apply app_eq_nil in Hh. tauto.
      * exists (registered l). rewrite Hf. apply registered_app.
    + exfalso. rewrite cancels_app, exits_app in H0.
      destruct H0 as [E | E]; apply app_eq_nil in E; tauto.
  - intros p f q H.
    destruct (reachable_Inv Hr) as [_ _ _ _ _ _ _ T].
    destruct (T _ _ _ H) as (He & Hi & _). split; [|exact He].
    intros E. apply in_cancels in Hi. rewrite E in Hi. exact Hi.
Qed.

(** C2 at the same scenario: the hooks 1 and 2, in this order. *)
Lemma C2_witness :
  reachable_from session64 process_error_world /\
  run_pc process_error_world = RunFinished (Returns (Some (ErrProcess 5))) /\
  exists pre post,
    trace process_error_world = pre ++ EvPop (registered pre) :: post /\
    [1; 2] = registered pre /\
    hooks_fired pre = [].
Proof.
  split; [exact process_error_reachable|]. split; [reflexivity|].
  destruct (C2_hooks_once_in_registration_order SessionGo emptyCtx 0 64 true
              process_error_world (Returns (Some (ErrProcess 5)))
              process_error_reachable eq_refl)
    as (pre & post & H1 & H2 & H3 & _).
  exists pre, post. split; [exact H1|]. split; [exact H2 | exact H3].
Defined.

(** ** Closing the transport *)

Lemma conn_closes_bound v parent conn mms cs w :
  reachable_from (boot v parent conn mms cs) w ->
  (finished w = false -> conn_closes (trace w) = []) /\
  (finished w = true ->
   length (conn_closes (trace w)) = if closes v cs then 1 else 0).
Proof.
  intros Hr. unfold finished. split; intros Hf.
  - destruct (reachable_Inv Hr) as [R _ _ _ _ _ _ _]. unfold run_inv in R.
    destruct (run_pc w); try discriminate;
      repeat match goal with
             | H : _ /\ _ |- _ => destruct H
             end;
      match goal with
      | H : cleanup_view ?t = ?c |- _ =>
          destruct (cleanup_view_facts t c H) as (_ & F & _); simpl in F;
          autorewrite with trace_rw in F; exact F
      end.
  - destruct (run_pc w) eqn:Hpc; try discriminate.
    destruct (finished_shape Hr Hpc)
      as (fr & fs & closed & body & tail & _ & _ & _ & _ & _ & _ & -> & _ & Hl & _).
    exact Hl.
Qed.

Arguments conn_closes_bound {v parent conn mms cs w} _.

(** C3. With [closeSocket] set the session calls [Close] on the transport
    once, in the cleanup of [Run]: never more than once, exactly once
    when [Run] has finished, and only after the loop was left, the context
    cancelled and the hooks drained.  Without [closeSocket] the session
    never calls it. *)
Theorem C3_transport_closed_in_teardown parent conn mms closeSocket w :
  reachable_from (boot SessionGo parent conn mms closeSocket) w ->
  (closeSocket = true ->
   length (conn_closes (trace w)) <= 1 /\
   (finished w = true -> length (conn_closes (trace w)) = 1)) /\
  (closeSocket = false -> conn_closes (trace w) = []) /\
  (forall pre e post, trace w = pre ++ EvConnClose e :: post ->
     exits pre <> [] /\ In (EvCancel RunLoop) pre /\ pops pre <> [] /\
     conn_closes pre = [] /\ conn_closes post = [] /\ finished w = true).
Proof.
  intros Hr. destruct (conn_closes_bound Hr) as (Hn & Hf). simpl in Hf.
  assert (Hle : length (conn_closes (trace w)) <= 1).
  { destruct (finished w).
    - rewrite Hf by reflexivity. destruct closeSocket; lia.
    - rewrite Hn by reflexivity. simpl. lia. }
  split; [|split].
  - intros ->. split; [exact Hle | exact Hf].
  - intros ->. destruct (finished w).
    + apply length_zero_iff_nil. apply Hf. reflexivity.
    + apply Hn. reflexivity.
  - intros pre e post Ht.
    destruct (reachable_Inv Hr) as [_ _ _ _ _ _ _ T].
    destruct (T _ _ _ Ht) as (H1 & H2 & H3 & H4).
    repeat split; auto.
    + rewrite Ht, conn_closes_app, H4 in Hle. simpl in Hle.
      destruct (conn_closes post); [reflexivity | simpl in Hle; lia].
    + destruct (finished w); [reflexivity|].
      rewrite Ht, conn_closes_app in Hn. specialize (Hn eq_refl).
      apply app_eq_nil in Hn. destruct Hn as [_ Hn]. discriminate.
Qed.

(** C3 at the same scenario: one [Close] of the transport. *)
Lemma C3_witness :
  reachable_from session64 process_error_world /\
  length (conn_closes (trace process_error_world)) = 1.
Proof.
  split; [exact process_error_reachable|].
  destruct (C3_transport_closed_in_teardown emptyCtx 0 64 true
              process_error_world process_error_reachable)
    as (H & _).
  destruct (H eq_refl) as (_ & H1). apply H1. reflexivity.
Defined.

(** ** The idle timer *)

Lemma trace_ok_ticks (v : Variant) (t : list Event) : trace_ok v t -> ticks_ok t.
Proof. intros T a d b H. exact (T _ _ _ H). Qed.

Lemma ticks_ok_app (t1 t2 : list Event) : ticks_ok (t1 ++ t2) -> ticks_ok t1.
Proof.
  intros T a d b H. apply (T a d (b ++ t2)). rewrite H, <- app_assoc. reflexivity.
Qed.

Lemma ticks_ok_last (t : list Event) (d : Z) :
  ticks_ok (t ++ [EvTick d]) -> (0 <= d)%Z.
Proof. intros T. apply (T t d []). reflexivity. Qed.

Lemma armed_at_le_elapsed (t : list Event) :
  ticks_ok t -> (armed_at t <= elapsed t)%Z.
Proof.
  induction t as [|e t IH] using rev_ind; intros T.
  - cbv. discriminate.
  - specialize (IH (ticks_ok_app _ _ T)).
    rewrite elapsed_snoc, armed_at_snoc.
    destruct e; try lia. apply ticks_ok_last in T. lia.
Qed.

(** The timer was last armed no earlier than any [NewTimer] or [Reset] of
    the trace. *)
Lemma armed_at_latest (p q : list Event) (e : Event) :
  ticks_ok (p ++ e :: q) -> is_arm e = true ->
  (elapsed p <= armed_at (p ++ e :: q))%Z.
Proof.
  induction q as [|x q IH] using rev_ind; intros T He.
  - change (p ++ [e]) with (p ++ [e]). rewrite armed_at_snoc.
    destruct e; try discriminate; lia.
  - change (p ++ e :: q ++ [x]) with (p ++ (e :: q) ++ [x]) in *.
    rewrite app_assoc in *.
    specialize (IH (ticks_ok_app _ _ T) He).
    pose proof (armed_at_le_elapsed _ (ticks_ok_app _ _ T)) as Hle.
    rewrite armed_at_snoc. destruct x; lia.
Qed.

(** The goroutine of the timer, once the timer has fired, gets to its call
    of [Close]. *)
Lemma idle_goroutine_closes parent conn mms cs w :
  reachable_from (boot SessionGo parent conn mms cs) w ->
  0 < count is_fire (trace w) ->
  exists sch w',
    exec sch w = Some w' /\ Forall (eq ATimerGo) sch /\
    go_pc w' = GoExited /\ count is_idle_cancel (trace w') = 1.
Proof.
  intros Hr Hfire. destruct (reachable_Inv Hr) as [_ _ T _ _ _ _ _].
  unfold timer_inv in T. destruct w as [v s X tm clk pc gpc t]. simpl in *.
  destruct tm as [[a d c]|]; simpl in T.
  - destruct T as ((_ & Hg & _ & _ & _ & _ & _ & Hle & Hc) & Hrecv & Hidle).
    destruct gpc; simpl in *; try congruence.
    + destruct Hc as [Hc | [Hc | Hc]]; try lia. subst c.
      exists [ATimerGo; ATimerGo; ATimerGo]. eexists. split; [reflexivity|].
      split; [repeat constructor|]. split; [reflexivity|]. simpl.
      autorewrite with trace_rw. simpl. lia.
    + exists [ATimerGo; ATimerGo]. eexists. split; [reflexivity|].
      split; [repeat constructor|]. split; [reflexivity|]. simpl.
      autorewrite with trace_rw. simpl. lia.
    + exists [ATimerGo]. eexists. split; [reflexivity|].
      split; [repeat constructor|]. split; [reflexivity|]. simpl.
      autorewrite with trace_rw. simpl. lia.
    + exists []. eexists. split; [reflexivity|].
      split; [constructor|]. split; [reflexivity|]. exact Hidle.
  - destruct T as ((_ & _ & _ & Hf & _) & _). lia.
Qed.

Arguments idle_goroutine_closes {parent conn mms cs w} _ _.

(** C4, as the code has it.  The timer is created once, with a window of
    300 seconds, before the first read.  It is reset, with the same
    window, after every return of [ReadWithContext], whether the read
    succeeded or failed.  It does not fire before 300 seconds have passed
    since it was created or reset.  The goroutine of the timer calls
    [Close] at most once and only after it received the expiry from
    [timer.C]; once the timer has fired, the goroutine gets to that
    call. *)
Theorem C4_timer_reset_after_every_read parent conn mms cs w :
  reachable_from (boot SessionGo parent conn mms cs) w ->
  timeout = 300000000000%Z /\
  (forall pre d post, trace w = pre ++ EvNewTimer d :: post ->
     d = timeout /\ count is_read pre = 0 /\ count is_new_timer pre = 0) /\
  (forall pre n e post, trace w = pre ++ EvRead n e :: post ->
     count is_new_timer pre = 1) /\
  (forall pre d post, trace w = pre ++ EvTimerReset d :: post ->
     d = timeout /\ count is_reset pre + 1 = count is_read pre) /\
  count is_reset (trace w) + pending_reset (run_pc w) = count is_read (trace w) /\
  count is_idle_cancel (trace w) <= 1 /\
  (forall p e q post, trace w = (p ++ e :: q) ++ EvTimerFire :: post ->
     is_arm e = true ->
     (elapsed p + timeout <= elapsed (p ++ e :: q))%Z) /\
  (forall pre post, trace w = pre ++ EvCancel IdleTimer :: post ->
     count is_recv pre = 1 /\ 0 < count is_fire pre /\
     count is_idle_cancel pre = 0) /\
  (0 < count is_fire (trace w) ->
   exists sch w',
     exec sch w = Some w' /\ Forall (eq ATimerGo) sch /\
     go_pc w' = GoExited /\ count is_idle_cancel (trace w') = 1).
Proof.
  intros Hr. destruct (reachable_Inv Hr) as [_ _ Ti _ _ Hv _ T].
  split; [reflexivity|].
  split; [intros pre d post H; exact (T _ _ _ H)|].
  split; [intros pre n e post H; destruct (T _ _ _ H) as (_ & H1); auto|].
  split; [intros pre d post H; exact (T _ _ _ H)|].
  split; [|split; [|split; [|split]]].
  - unfold timer_inv in Ti. destruct (timer w).
    + destruct Ti as ((_ & _ & _ & _ & _ & H & _) & _). exact H.
    + destruct Ti as ((_ & _ & H0 & _ & _ & H) & _).
      destruct (H Hv) as (H1 & H2). rewrite H0, H1.
      destruct (run_pc w); try reflexivity; discriminate.
  - destruct Ti as (_ & _ & ->). destruct (go_pc w); simpl; lia.
  - intros p e q post H He.
    destruct (T _ _ _ H) as (_ & Hfire).
    assert (Tk : ticks_ok (p ++ e :: q)).
    { apply (ticks_ok_app _ (EvTimerFire :: post)). rewrite <- H.
      exact (trace_ok_ticks _ _ T). }
    pose proof (armed_at_latest p q e Tk He). lia.
  - intros pre post H. exact (T _ _ _ H).
  - apply (idle_goroutine_closes Hr).
Qed.

(** The first read fails and the timer is reset all the same. *)
Lemma C4_counterexample :
  exec failed_read_schedule session64 = Some failed_read_world /\
  trace failed_read_world =
    [EvNewTimer timeout; EvRead 0 (Some (ErrTransport 7)); EvTimerReset timeout] /\
  ~ resets_only_after_successful_reads (trace failed_read_world).
Proof.
  split; [reflexivity|]. split; [reflexivity|].
  intros H.
  specialize (H [EvNewTimer timeout; EvRead 0 (Some (ErrTransport 7))]
                timeout [] eq_refl).
  discriminate H.
Qed.

Example idle_timeout_trace :
  trace idle_timeout_world =
  [EvNewTimer timeout; EvRead 12 None; EvTimerReset timeout; EvProcess 12 None;
   EvTick timeout; EvTimerFire; EvTimerRecv; EvTimerStop IdleTimer;
   EvCancel IdleTimer; EvRead 0 (Some (ErrTransport 3)); EvTimerReset timeout;
   EvLoopExit (mkFrame (Some (ErrTransport 3)) false);
   EvTimerStop RunLoop; EvCancel RunLoop; EvPop []; EvConnClose None].
Proof. reflexivity. Qed.

(** The timer may not fire before its window has passed. *)
Example timer_does_not_fire_early :
  exec [ARun; ARun; ATick (timeout - 1); ATimerFire] session64 = None.
Proof. reflexivity. Qed.

(** C4 at the idle session: both reads, the failed one included, were
    followed by a reset; 300 seconds passed between the last reset before
    the expiry and the expiry; the goroutine called [Close] once. *)
Lemma C4_witness :
  reachable_from session64 idle_timeout_world /\
  count is_reset (trace idle_timeout_world)
    + pending_reset (run_pc idle_timeout_world)
  = count is_read (trace idle_timeout_world) /\
  count is_idle_cancel (trace idle_timeout_world) <= 1 /\
  (elapsed [EvNewTimer timeout; EvRead 12 None] + timeout
   <= elapsed ([EvNewTimer timeout; EvRead 12 None]
               ++ EvTimerReset timeout :: [EvProcess 12 None; EvTick timeout]))%Z /\
  exists sch w',
    exec sch idle_timeout_world = Some w' /\ Forall (eq ATimerGo) sch /\
    go_pc w' = GoExited /\ count is_idle_cancel (trace w') = 1.
Proof.
  assert (Hr : reachable_from session64 idle_timeout_world)
    by (exists idle_timeout_schedule; reflexivity).
  split; [exact Hr|].
  destruct (C4_timer_reset_after_every_read emptyCtx 0 64 true idle_timeout_world Hr)
    as (_ & _ & _ & _ & H1 & H2 & H3 & _ & H4).
  split; [exact H1|]. split; [exact H2|]. split.
  - apply (H3 _ _ _ [EvTimerRecv; EvTimerStop IdleTimer; EvCancel IdleTimer;
                     EvRead 0 (Some (ErrTransport 3)); EvTimerReset timeout;
                     EvLoopExit (mkFrame (Some (ErrTransport 3)) false);
                     EvTimerStop RunLoop; EvCancel RunLoop; EvPop [];
                     EvConnClose None]); reflexivity.
  - apply H4. vm_compute. lia.
Defined.

(** ** The goroutine of the timer is left behind *)

Lemma left_waiting_step (a : Action) (w w' : World) :
  left_waiting w -> step a w = Some w' -> left_waiting w'.
Proof.
  unfold left_waiting, finished. intros (Hf & Hg & tm & Ht & Ha & Hc) H.
  destruct w as [v s X tm0 clk pc gpc t]. simpl in *. subst gpc tm0.
  destruct tm as [a0 d0 c0]. simpl in *. subst a0 c0.
  destruct pc; try discriminate.
  destruct a; simpl in H;
    repeat (progress unfold Run, idle_goroutine, timer_fire, timer_recv, tick,
              WriteMessage, WriteWithContext, log_Printf, SetContextValue,
              WithValue, Close in H; simpl in H);
    split_step H; try discriminate H; try (injection H as <-); simpl;
    repeat split; try reflexivity; eexists; repeat split; reflexivity.
Qed.

Lemma left_waiting_exec (sch : list Action) (w w' : World) :
  left_waiting w -> exec sch w = Some w' -> left_waiting w'.
Proof.
  revert w. induction sch as [|a sch IH]; intros w Hw H; simpl in H.
  - injection H as <-. exact Hw.
  - destruct (step a w) as [w1|] eqn:E; [|discriminate].
    eapply IH; [|exact H]. eapply left_waiting_step; eassumption.
Qed.

(** C5 on the code: a session whose [Run] created the timer and finished
    before the timer fired (an explicit [Close], a read error, a
    processing error) leaves the goroutine of the timer blocked in its
    [select], in every continuation. *)
Theorem C5_idle_goroutine_never_returns parent conn mms cs w :
  reachable_from (boot SessionGo parent conn mms cs) w ->
  finished w = true ->
  timer w <> None ->
  count is_fire (trace w) = 0 ->
  forall sch w', exec sch w = Some w' -> go_pc w' = GoWait.
Proof.
  intros Hr Hf Ht Hfire sch w' Hsch.
  assert (L : left_waiting w).
  { destruct (reachable_Inv Hr) as [_ _ Ti _ _ _ _ _]. unfold timer_inv in Ti.
    unfold left_waiting. split; [exact Hf|].
    unfold finished in Hf.
    destruct (timer w) as [[a d c]|]; [|congruence].
    destruct Ti as ((_ & Hg & _ & _ & _ & _ & Hs & Hle & _) & Hrecv & _).
    simpl in *.
    destruct (run_pc w); try discriminate. simpl in Hs.
    destruct c; [lia|]. split.
    - destruct (go_pc w); simpl in Hrecv; try congruence; lia.
    - eexists. split; [reflexivity|]. simpl. split; [apply Hs|]; reflexivity. }
  destruct (left_waiting_exec _ _ _ L Hsch) as (_ & Hg & _). exact Hg.
Qed.

(** C5 at a session whose first read fails: [Run] has returned and the
    goroutine of the timer waits in every continuation. *)
Lemma C5_witness :
  reachable_from session64 read_error_world /\
  run_pc read_error_world = RunFinished (Returns (Some (ErrTransport 7))) /\
  go_pc read_error_world = GoWait /\
  forall sch w', exec sch read_error_world = Some w' -> go_pc w' = GoWait.
Proof.
  assert (Hr : reachable_from session64 read_error_world)
    by (exists read_error_schedule; reflexivity).
  split; [exact Hr|]. split; [reflexivity|]. split; [reflexivity|].
  apply (C5_idle_goroutine_never_returns emptyCtx 0 64 true read_error_world Hr);
    [reflexivity | discriminate | reflexivity].
Defined.

(** ** Hooks registered after the drain *)

Lemma drained_registry v parent conn mms cs w pre fs post :
  reachable_from (boot v parent conn mms cs) w ->
  trace w = pre ++ EvPop fs :: post ->
  fs = registered pre /\
  hooks_fired pre = [] /\
  onClose (sess w) = registered post /\
  exists pending,
    fs = hooks_fired (trace w) ++ pending /\
    (finished w = true -> pending = []).
Proof.
  intros Hr Ht. destruct (reachable_Inv Hr) as [R _ _ _ _ _ _ T].
  destruct (T _ _ _ Ht) as (_ & Hpre & Hfs).
  destruct (cleanup_view_facts _ _ Hpre) as (Hh & _ & Hp). simpl in Hh, Hp.
  split; [exact Hfs|]. split; [exact Hh|].
  assert (Hpops : pops (trace w) = fs :: pops post).
  { rewrite Ht, pops_app, Hp. reflexivity. }
  assert (Hreg : registered (trace w) = fs ++ registered post).
  { rewrite Ht, registered_app, <- Hfs. reflexivity. }
  unfold run_inv, finished in *.
  destruct (run_pc w);
    repeat match goal with
           | H : _ /\ _ |- _ => destruct H
           | H : exists _, _ |- _ => destruct H
           end;
    match goal with
    | H : cleanup_view (trace w) = ?c |- _ =>
        destruct (cleanup_view_facts _ _ H) as (_ & _ & F); simpl in F;
        autorewrite with trace_rw in F; simpl in F;
        rewrite Hpops in F; try discriminate F; injection F as F _
    end.
  - rewrite F in Hreg. rewrite Hreg in *.
    match goal with
    | H : _ ++ registered post = _ ++ onClose _ |- _ =>
        apply app_inv_head in H; split; [symmetry; exact H|]
    end.
    exists pending. split; [exact F | discriminate].
  - rewrite F in Hreg. rewrite Hreg in *.
    match goal with
    | H : _ ++ registered post = _ ++ onClose _ |- _ =>
        apply app_inv_head in H; split; [symmetry; exact H|]
    end.
    exists []. rewrite app_nil_r. split; [exact F | discriminate].
  - rewrite F in Hreg. rewrite Hreg in *.
    match goal with
    | H : _ ++ registered post = _ ++ onClose _ |- _ =>
        apply app_inv_head in H; split; [symmetry; exact H|]
    end.
    exists []. rewrite app_nil_r. split; [exact F | reflexivity].
Qed.

Arguments drained_registry {v parent conn mms cs w pre fs post} _ _.

(** C6, as the code has it.  [AddOnClose] only appends to the registry.
    A hook passed to it after the drain is not called: it stays in the
    registry, which [Run] does not drain again.  The hooks that are called
    are among those registered before the drain; when [Run] has finished
    they are all of them. *)
Theorem C6_late_hooks_stay_registered v parent conn mms cs w pre fs post :
  reachable_from (boot v parent conn mms cs) w ->
  trace w = pre ++ EvPop fs :: post ->
  fs = registered pre /\
  hooks_fired pre = [] /\
  onClose (sess w) = registered post /\
  (exists pending,
     fs = hooks_fired (trace w) ++ pending /\
     (finished w = true -> pending = [])) /\
  (forall f, exists w',
     step (ACallAddOnClose f) w = Some w' /\
     trace w' = pre ++ EvPop fs :: (post ++ [EvAddOnClose f]) /\
     onClose (sess w') = registered post ++ [f] /\
     hooks_fired (trace w') = hooks_fired (trace w)).
Proof.
  intros Hr Ht.
  destruct (drained_registry Hr Ht) as (H1 & H2 & H3 & H4).
  repeat split; auto.
  intros f. eexists. split; [reflexivity|]. simpl.
  rewrite Ht, H3. autorewrite with trace_rw. simpl.
  rewrite <- app_assoc. auto.
Qed.

Lemma step_extends_trace (a : Action) (w w' : World) :
  step a w = Some w' -> exists ext, trace w' = trace w ++ ext.
Proof.
  intros H. step_cases w a H.
  all: subst; simpl.
  all: try solve [exists []; rewrite app_nil_r; reflexivity].
  all: try solve [eexists; reflexivity].
  all: try solve [rewrite <- app_assoc; eexists; reflexivity].
Qed.

Lemma exec_extends_trace (sch : list Action) (w w' : World) :
  exec sch w = Some w' -> exists ext, trace w' = trace w ++ ext.
Proof.
  revert w. induction sch as [|a sch IH]; intros w H; simpl in H.
  - injection H as <-. exists []. rewrite app_nil_r. reflexivity.
  - destruct (step a w) as [w1|] eqn:E; [|discriminate].
    destruct (step_extends_trace _ _ _ E) as (e1 & H1).
    destruct (IH _ H) as (e2 & H2).
    exists (e1 ++ e2). rewrite H2, H1, app_assoc. reflexivity.
Qed.

(** A hook registered after [Run] has returned is recorded and never
    called, whatever happens next. *)
Lemma C6_counterexample :
  reachable_from session64 read_error_world /\
  pops (trace read_error_world) = [[]] /\
  ~ late_hook_runs read_error_world 7 /\
  forall sch w',
    exec (ACallAddOnClose 7 :: sch) read_error_world = Some w' ->
    In (EvAddOnClose 7) (trace w') /\ hooks_fired (trace w') = [].
Proof.
  assert (Hr : reachable_from session64 read_error_world)
    by (exists read_error_schedule; reflexivity).
  split; [exact Hr|]. split; [reflexivity|]. split.
  - intros H. specialize (H _ eq_refl). simpl in H. exact H.
  - intros sch w' Hsch.
    assert (Hr' : reachable_from session64 w').
    { eapply reachable_trans; [exact Hr|].
      exists (ACallAddOnClose 7 :: sch). exact Hsch. }
    simpl in Hsch. destruct (exec_extends_trace _ _ _ Hsch) as (ext & Hext).
    simpl in Hext. split.
    + rewrite Hext. simpl. tauto.
    + match type of Hext with
      | _ = ?a :: ?b :: ?c :: ?d :: ?e :: ?f :: EvPop [] :: ?rest =>
          assert (Ht : trace w' = [a; b; c; d; e; f] ++ EvPop [] :: rest)
            by exact Hext
      end.
      destruct (drained_registry Hr' Ht) as (_ & _ & _ & pending & Hp & _).
      symmetry in Hp. apply app_eq_nil in Hp. tauto.
Qed.

(** C6 at a finished session: the late hook 7 stays in the registry. *)
Lemma C6_witness :
  reachable_from session64 read_error_world /\
  onClose (sess read_error_world) = [] /\
  exists w',
    step (ACallAddOnClose 7) read_error_world = Some w' /\
    onClose (sess w') = [7] /\ hooks_fired (trace w') = [].
Proof.
  assert (Hr : reachable_from session64 read_error_world)
    by (exists read_error_schedule; reflexivity).
  split; [exact Hr|].
  destruct (C6_late_hooks_stay_registered SessionGo emptyCtx 0 64 true
              read_error_world
              [EvNewTimer timeout; EvRead 0 (Some (ErrTransport 7));
               EvTimerReset timeout;
               EvLoopExit (mkFrame (Some (ErrTransport 7)) false);
               EvTimerStop RunLoop; EvCancel RunLoop]
              [] [EvConnClose None] Hr eq_refl)
    as (_ & _ & H3 & _ & H5).
  split; [exact H3|].
  destruct (H5 7) as (w' & Hs & _ & Ho & Hh).
  exists w'. split; [exact Hs|]. split; [exact Ho | exact Hh].
Defined.

(** ** WriteMessage *)

(** C7. [WriteMessage] returns the encoding error exactly when [Marshal]
    fails, and then leaves the world as it is: no write on the transport.
    When [Marshal] succeeds it makes one call of [WriteWithContext], with
    the context of the message and the marshalled bytes, and returns what
    that call returned, an error included: there is no second attempt. *)
Theorem C7_WriteMessage_one_write (req : Message) (answer : option nat) (w : World) :
  (is_encoding_error (snd (WriteMessage req answer w)) = true <->
   snd (Marshal req) <> None) /\
  match snd (Marshal req) with
  | Some e =>
      WriteMessage req answer w = (w, Some (Errorf "cannot marshal: %w" e))
  | None =>
      snd (WriteMessage req answer w) = transport_error answer /\
      filter is_write (trace (fst (WriteMessage req answer w))) =
        filter is_write (trace w)
        ++ [EvWrite (msgCtx req) (fst (Marshal req)) (transport_error answer)] /\
      count is_write (trace (fst (WriteMessage req answer w))) =
        count is_write (trace w) + 1 /\
      sess (fst (WriteMessage req answer w)) = sess w /\
      cancelled (fst (WriteMessage req answer w)) = cancelled w /\
      timer (fst (WriteMessage req answer w)) = timer w /\
      run_pc (fst (WriteMessage req answer w)) = run_pc w /\
      go_pc (fst (WriteMessage req answer w)) = go_pc w
  end.
Proof.
  unfold WriteMessage, Marshal.
  destruct (msgMarshalErr req) as [c|]; simpl.
  - split; [|reflexivity]. split; [discriminate | reflexivity].
  - split.
    + split; [|congruence]. destruct answer; discriminate.
    + unfold log_Printf. destruct (variant w); simpl;
        autorewrite with trace_rw; unfold count; simpl;
        rewrite ?filter_app; simpl; rewrite ?app_nil_r, ?Nat.add_0_r;
        repeat split; reflexivity.
Qed.

(** ** Done *)

Lemma Done_spec v parent conn mms cs w :
  reachable_from (boot v parent conn mms cs) w ->
  Done (cancelled w) (sess w) =
  mem (cancel (sess w)) (cancelled w) || ctx_done (cancelled w) parent.
Proof.
  intros Hr. destruct (reachable_Inv Hr) as [_ _ _ _ (H1 & H2 & _) _ _ _].
  unfold Done, Context. rewrite ctx_done_root, H1, H2. reflexivity.
Qed.

Arguments Done_spec {v parent conn mms cs w} _.

(** C8, as the code has it.  The channel of [Done] is closed exactly when
    [Close] has been called (by a caller, by the goroutine of the timer or
    by the cleanup of [Run]) or the context given to [NewSession] is
    done.  When [Run] has finished, [Close] has been called.  As long as
    the context given to [NewSession] is not done, the channel is closed
    exactly when [Close] has been called or [Run] has returned. *)
Theorem C8_Done_iff_closed_or_parent_done v parent conn mms cs w :
  reachable_from (boot v parent conn mms cs) w ->
  (Done (cancelled w) (sess w) = true <->
   cancels (trace w) <> [] \/ ctx_done (cancelled w) parent = true) /\
  (finished w = true -> cancels (trace w) <> []) /\
  (finished w = true -> Done (cancelled w) (sess w) = true) /\
  (ctx_done (cancelled w) parent = false ->
   (Done (cancelled w) (sess w) = true <->
    cancels (trace w) <> [] \/ finished w = true)).
Proof.
  intros Hr. destruct (reachable_Inv Hr) as [R _ _ _ (_ & _ & H3) _ _ _].
  assert (Hd : Done (cancelled w) (sess w) = true <->
               cancels (trace w) <> [] \/ ctx_done (cancelled w) parent = true).
  { rewrite (Done_spec Hr), orb_true_iff, H3. tauto. }
  assert (Hf : finished w = true -> cancels (trace w) <> []).
  { unfold finished. intros Hf. destruct (run_pc w) eqn:Hpc; try discriminate.
    destruct (finished_shape Hr Hpc)
      as (fr & fs & closed & body & tail & Ht & _ & _ & _ & Hcv & _).
    assert (Hi : In RunLoop (cancels (trace w))).
    { apply in_cancels. rewrite Ht. apply in_or_app. right. right.
      apply in_cleanup_view. rewrite Hcv. left. reflexivity. }
    intros E. rewrite E in Hi. exact Hi. }
  split; [exact Hd|]. split; [exact Hf|]. split.
  - intros F. apply Hd. left. apply Hf. exact F.
  - intros Hp. rewrite Hd, Hp. split.
    + intros [H | H]; [left; exact H | discriminate H].
    + intros [H | H]; left; [exact H | apply Hf; exact H].
Qed.

(** The owner of the parent context cancels it: [Done] is signalled, no
    [Close] was called and [Run] has not even started. *)
Lemma C8_counterexample :
  exec [AParentCancel 0] child_session = Some parent_cancelled_world /\
  Done (cancelled parent_cancelled_world) (sess parent_cancelled_world) = true /\
  cancels (trace parent_cancelled_world) = [] /\
  run_pc parent_cancelled_world = RunCreated /\
  ~ done_iff_closed_or_returned parent_cancelled_world.
Proof.
  repeat split.
  intros [H _]. destruct (H eq_refl) as [E | E].
  - apply E. reflexivity.
  - discriminate E.
Qed.

(** C8 at a finished session. *)
Lemma C8_witness :
  reachable_from session64 read_error_world /\
  Done (cancelled read_error_world) (sess read_error_world) = true /\
  cancels (trace read_error_world) <> [].
Proof.
  assert (Hr : reachable_from session64 read_error_world)
    by (exists read_error_schedule; reflexivity).
  split; [exact Hr|].
  destruct (C8_Done_iff_closed_or_parent_done SessionGo emptyCtx 0 64 true
              read_error_world Hr) as (_ & H2 & H3 & _).
  split; [apply H3; reflexivity | apply H2; reflexivity].
Defined.

(** ** SetContextValue *)

(** A transition that is not [SetContextValue] of the key [k] leaves the
    value of [k] in the context cell. *)
Lemma Value_step (k : key) (a : Action) (w w' : World) :
  step a w = Some w' ->
  (forall v', a <> ACallSetContextValue k v') ->
  Value (Context (sess w')) k = Value (Context (sess w)) k.
Proof.
  intros H Hk. step_cases w a H.
  all: subst; simpl; try reflexivity.
  all: destruct k as [| m | | m]; simpl; try reflexivity.
  all: destruct (Nat.eqb_spec n m) as [->|]; try reflexivity.
  all: exfalso; eapply Hk; reflexivity.
Qed.

Lemma Value_exec (k : key) (sch : list Action) (w w' : World) :
  exec sch w = Some w' ->
  (forall v', ~ In (ACallSetContextValue k v') sch) ->
  Value (Context (sess w')) k = Value (Context (sess w)) k.
Proof.
  revert w. induction sch as [|a sch IH]; intros w H Hk; simpl in H.
  - injection H as <-. reflexivity.
  - destruct (step a w) as [w1|] eqn:E; [|discriminate].
    rewrite (IH _ H).
    + apply (Value_step k _ _ _ E). intros v' ->. apply (Hk v'). left. reflexivity.
    + intros v' Hin. apply (Hk v'). right. exact Hin.
Qed.

(** C9, as the code has it.  With a key that is comparable and not nil,
    [SetContextValue] stores a context that wraps the previous snapshot
    and binds the key; every later snapshot gives that value for the key
    until [SetContextValue] is called for the same key again; and every
    snapshot is done once the cancel function of the session has been
    called.  With a nil key or a key that is not comparable the call
    panics and the cell keeps its snapshot; a key that is not equal to
    itself is stored but cannot be read back. *)
Theorem C9_SetContextValue_comparable_key parent conn mms cs w n v :
  reachable_from (boot SessionGo parent conn mms cs) w ->
  (exists w1,
     step (ACallSetContextValue (Key n) v) w = Some w1 /\
     Context (sess w1) = valueCtx (Context (sess w)) (Key n) v /\
     Value (Context (sess w1)) (Key n) = v /\
     (forall X, Done X (sess w1) = Done X (sess w)) /\
     forall sch w2,
       exec sch w1 = Some w2 ->
       (forall v', ~ In (ACallSetContextValue (Key n) v') sch) ->
       Value (Context (sess w2)) (Key n) = v /\
       (forall X, mem (cancel (sess w)) X = true -> Done X (sess w2) = true)) /\
  step (ACallSetContextValue KeyNil v) w = Some w /\
  (forall m, step (ACallSetContextValue (KeyUncomparable m) v) w = Some w) /\
  (exists w1,
     step (ACallSetContextValue KeyNaN v) w = Some w1 /\
     Value (Context (sess w1)) KeyNaN = Value (Context (sess w)) KeyNaN).
Proof.
  intros Hr. destruct (reachable_Inv Hr) as [_ _ _ _ (_ & Hc & _) Hv _ _].
  split; [|split; [|split]].
  - eexists. split.
    { simpl. rewrite Hv. reflexivity. }
    simpl. rewrite Nat.eqb_refl.
    split; [reflexivity|]. split; [reflexivity|]. split; [reflexivity|].
    intros sch w2 Hsch Hk.
    split.
    + rewrite (Value_exec _ _ _ _ Hsch Hk). simpl. rewrite Nat.eqb_refl. reflexivity.
    + intros X HX.
      assert (Hr2 : reachable_from (boot SessionGo parent conn mms cs) w2).
      { eapply reachable_trans; [exact Hr|].
        exists (ACallSetContextValue (Key n) v :: sch). simpl. rewrite Hv.
        exact Hsch. }
      destruct (reachable_Inv Hr2) as [_ _ _ _ (H1 & H2 & _) _ _ _].
      unfold Done, Context. rewrite ctx_done_root, H1. simpl.
      rewrite <- Hc, HX. reflexivity.
  - simpl. rewrite Hv. reflexivity.
  - intros m. simpl. rewrite Hv. reflexivity.
  - eexists. split.
    { simpl. rewrite Hv. reflexivity. }
    reflexivity.
Qed.

(** A nil key: the call panics, the cell keeps its snapshot and the key
    reads as nil. *)
Lemma C9_counterexample :
  SetContextValue KeyNil (Val 1) (sess session64) = None /\
  step (ACallSetContextValue KeyNil (Val 1)) session64 = Some session64 /\
  Value (Context (sess session64)) KeyNil = ValNil /\
  ~ set_then_get KeyNil (Val 1) (sess session64).
Proof.
  repeat split. intros (s' & H & _). discriminate H.
Qed.

(** C9 at a running session: the key 3 keeps its value when the key 4 is
    set and the session is closed. *)
Lemma C9_witness :
  reachable_from session64 failed_read_world /\
  exists w1,
    step (ACallSetContextValue (Key 3) (Val 8)) failed_read_world = Some w1 /\
    Value (Context (sess w1)) (Key 3) = Val 8 /\
    forall w2,
      exec [ACallSetContextValue (Key 4) (Val 9); ACallClose] w1 = Some w2 ->
      Value (Context (sess w2)) (Key 3) = Val 8.
Proof.
  assert (Hr : reachable_from session64 failed_read_world)
    by (exists failed_read_schedule; reflexivity).
  split; [exact Hr|].
  destruct (C9_SetContextValue_comparable_key emptyCtx 0 64 true
              failed_read_world 3 (Val 8) Hr)
    as ((w1 & H1 & _ & H3 & _ & H5) & _).
  exists w1. split; [exact H1|]. split; [exact H3|].
  intros w2 H2. apply (H5 _ _ H2).
  intros v' [E | [E | []]]; discriminate E.
Defined.

(** ** Close *)

(** The error that a finished [Run] returns is the error that made its
    loop return. *)
Lemma run_returns_loop_error v parent conn mms cs w r :
  reachable_from (boot v parent conn mms cs) w ->
  run_pc w = RunFinished (Returns r) ->
  exists fr body tail,
    trace w = body ++ EvLoopExit fr :: tail /\
    r = ret_err fr /\ ret_err fr = last_io body /\ r <> None.
Proof.
  intros Hr Hpc.
  destruct (finished_shape Hr Hpc)
    as (fr & fs & closed & body & tail & Ht & _ & _ & Hb & _ & _ & _ & _ & _ & Ho).
  unfold outcome in Ho. simpl in Ho.
  destruct (panicking fr); [discriminate|].
  destruct (Hb eq_refl) as (H1 & H2).
  injection Ho as ->. exists fr, body, tail.
  destruct (ret_err fr); [|congruence]. simpl. repeat split; auto.
Qed.

Arguments run_returns_loop_error {v parent conn mms cs w r} _ _.

(** C10. [Close] returns nil in every world, however often it is called
    (a second call changes nothing).  The cancellation step of the cleanup
    therefore leaves the error of [Run] as it was, and the error that
    [Run] returns is the error of its read and process loop or, with
    [closeSocket] only, the error of the transport's [Close]. *)
Theorem C10_Close_returns_nil v parent conn mms cs w :
  reachable_from (boot v parent conn mms cs) w ->
  (forall who w0, snd (Close who w0) = None) /\
  (forall who who' w0,
     snd (Close who' (fst (Close who w0))) = None /\
     cancelled (fst (Close who' (fst (Close who w0)))) =
     cancelled (fst (Close who w0))) /\
  (forall fr w', run_pc w = RunDeferClose fr -> step ARun w = Some w' ->
     run_pc w' = RunDeferPop fr) /\
  (forall r, run_pc w = RunFinished (Returns r) ->
     exists fr body tail,
       trace w = body ++ EvLoopExit fr :: tail /\
       ret_err fr = last_io body /\
       (r = ret_err fr \/
        (closes v cs = true /\ conn_closes (trace w) = [r]))).
Proof.
  intros Hr. split; [reflexivity|]. split; [|split].
  - intros who who' w0. split; [reflexivity|]. simpl.
    unfold call_cancel at 1. rewrite mem_call_cancel, Nat.eqb_refl. reflexivity.
  - intros fr w' Hpc H. simpl in H. unfold Run in H. rewrite Hpc in H.
    simpl in H. injection H as <-. simpl.
    rewrite or_else_nil, frame_eta. reflexivity.
  - intros r Hpc.
    destruct (run_returns_loop_error Hr Hpc) as (fr & body & tail & Ht & H1 & H2 & _).
    exists fr, body, tail. auto.
Qed.

(** C10 at the same scenario. *)
Lemma C10_witness :
  reachable_from session64 process_error_world /\
  run_pc process_error_world = RunFinished (Returns (Some (ErrProcess 5))) /\
  exists fr body tail,
    trace process_error_world = body ++ EvLoopExit fr :: tail /\
    ret_err fr = last_io body /\
    (Some (ErrProcess 5) = ret_err fr \/
     (true = true /\
      conn_closes (trace process_error_world) = [Some (ErrProcess 5)])).
Proof.
  split; [exact process_error_reachable|]. split; [reflexivity|].
  destruct (C10_Close_returns_nil SessionGo emptyCtx 0 64 true
              process_error_world process_error_reachable)
    as (_ & _ & _ & H).
  exact (H (Some (ErrProcess 5)) eq_refl).
Defined.

(** ** The other ways out of the loop *)

(** A negative [maxMessageSize]: [make] panics before the timer exists;
    the cleanup runs all the same and [Run] does not return. *)
Example make_panics :
  option_map (fun w => (run_pc w, trace w))
             (exec [ARun; ARun; ARun; ARun; ARun]
                   (boot SessionGo emptyCtx 0 (-1) false)) =
  Some (RunFinished Panics,
        [EvLoopExit (mkFrame None true); EvCancel RunLoop; EvPop []]).
Proof. reflexivity. Qed.

(** A read that claims more bytes than the buffer holds: the slice
    expression panics, the timer is stopped and the cleanup runs. *)
Example slice_panics :
  option_map (fun w => (run_pc w, trace w))
             (exec [ACallAddOnClose 4; ARun; ARun; AReadReturns 65 None; ARun;
                    ARun; ARun; ARun; ARun; ARun; ARun; AConnCloseReturns None]
                   session64) =
  Some (RunFinished Panics,
        [EvAddOnClose 4; EvNewTimer timeout; EvRead 65 None;
         EvTimerReset timeout; EvLoopExit (mkFrame None true);
         EvTimerStop RunLoop; EvCancel RunLoop; EvPop [4]; EvHook 4;
         EvConnClose None]).
Proof. reflexivity. Qed.

(** The older session: no timer, no transport [Close], and a log line for
    every datagram. *)
Example part000_run :
  option_map (fun w => (run_pc w, trace w))
             (exec [ACallAddOnClose 4; ARun; AReadReturns 3 None; ARun;
                    AProcessReturns (Some 1); ARun; ARun; ARun; ARun]
                   (boot Part000 emptyCtx 0 64 true)) =
  Some (RunFinished (Returns (Some (ErrProcess 1))),
        [EvAddOnClose 4; EvRead 3 None; EvLog;
         EvProcess 3 (Some (ErrProcess 1));
         EvLoopExit (mkFrame (Some (ErrProcess 1)) false);
         EvCancel RunLoop; EvPop [4]; EvHook 4]).
Proof. reflexivity. Qed.

(** An explicit [Close] while [Run] waits for a datagram: the read fails
    with the cancellation and [Run] returns that error. *)
Example explicit_close :
  option_map (fun w => (run_pc w, Done (cancelled w) (sess w), cancels (trace w)))
             (exec [ARun; ARun; ACallClose; AReadReturns 0 (Some 2); ARun; ARun;
                    ARun; ARun; ARun; ARun; AConnCloseReturns None]
                   session64) =
  Some (RunFinished (Returns (Some (ErrTransport 2))), true, [Caller; RunLoop]).
Proof. reflexivity. Qed.

(** * More of the code *)

(** ** The loop of [Run], datagram by datagram *)

Lemma ok_reads_app (mms : Z) (t1 t2 : list Event) :
  ok_reads mms (t1 ++ t2) = ok_reads mms t1 ++ ok_reads mms t2.
Proof. apply flat_map_app. Qed.

Lemma processed_app (t1 t2 : list Event) :
  processed (t1 ++ t2) = processed t1 ++ processed t2.
Proof. apply flat_map_app. Qed.

Lemma last_read_snoc (t : list Event) (e : Event) :
  last_read (t ++ [e]) =
  match e with
  | EvRead n r => Some (n, r)
  | _ => last_read t
  end.
Proof.
  unfold last_read. rewrite flat_map_app.
  destruct e; simpl; rewrite ?app_nil_r; try reflexivity; apply last_last.
Qed.

#[local] Hint Rewrite ok_reads_app processed_app last_read_snoc : trace_rw.

Lemma loop_inv_boot v parent conn mms cs : loop_inv (boot v parent conn mms cs).
Proof. destruct v; cbv; auto. Qed.

Lemma loop_inv_step (a : Action) (w w' : World) :
  run_inv w -> loop_inv w -> step a w = Some w' -> loop_inv w'.
Proof.
  intros R I H. unfold loop_inv, run_inv in *. step_cases w a H.
  all: subst.
  all: try (destruct pc; simpl in * ).
  all: repeat match goal with
         | H : _ /\ _ |- _ => destruct H
         | H : exists _, _ |- _ => destruct H
         end.
  all: autorewrite with trace_rw; simpl.
  all: repeat match goal with
         | H : exits _ = _ |- _ => rewrite H in *
         end; simpl in *.
  all: unfold exit_cause in *; simpl in *.
  all: autorewrite with trace_rw; simpl.
  all: rewrite ?app_nil_r in *.
  all: repeat match goal with
         | H : (_ <? _)%Z = true |- _ => apply Z.ltb_lt in H
         | H : (_ <? _)%Z = false |- _ => apply Z.ltb_ge in H
         | H : last_read _ = _ |- _ => rewrite H in *
         | H : (_ || _)%bool = false |- _ => apply orb_false_iff in H; destruct H
         end.
  all: try (intuition (try lia; try congruence); fail).
  all: unfold in_range, transport_error, process_error in *.
  all: repeat match goal with
         | H : (_ && _)%bool = _ |- _ => rewrite H in *
         | e : option err_value |- _ => destruct e; simpl in *
         | H : Some _ = Some _ |- _ => injection H as <-
         end.
  all: rewrite ?app_nil_r in *.
  all: repeat match goal with
         | |- context [option_map _ ?e] => destruct e; simpl in *
         | H : context [option_map _ ?e] |- _ => destruct e; simpl in *
         | H : Some _ = Some _ |- _ => injection H as <-
         end.
  all: rewrite ?app_nil_r in *.
  all: intuition (try lia; try congruence).
Qed.

Lemma reachable_loop_inv v parent conn mms cs w :
  reachable_from (boot v parent conn mms cs) w -> loop_inv w.
Proof.
  revert w. apply reachable_ind.
  - apply loop_inv_boot.
  - intros a w w' Hr I Hs. destruct (reachable_Inv Hr) as [R _ _ _ _ _ _ _].
    eapply loop_inv_step; eassumption.
Qed.

Lemma reachable_mms v parent conn mms cs w :
  reachable_from (boot v parent conn mms cs) w -> maxMessageSize (sess w) = mms.
Proof. intros Hr. destruct (reachable_static _ _ Hr) as (_ & _ & H & _). exact H. Qed.

Lemma ok_reads_in_range (mms n : Z) (t : list Event) :
  In n (ok_reads mms t) -> in_range mms n = true.
Proof.
  unfold ok_reads. rewrite in_flat_map. intros (e & _ & H).
  destruct e as [| | | | | | | | | | m r | | | | | | |]; try contradiction.
  destruct r; try contradiction.
  destruct (in_range mms m) eqn:E; [|contradiction].
  destruct H as [<-|[]]. exact E.
Qed.

Lemma in_range_spec (mms n : Z) : in_range mms n = true <-> (0 <= n <= mms)%Z.
Proof. unfold in_range. rewrite andb_true_iff, Z.leb_le, Z.leb_le. tauto. Qed.

Lemma last_read_none (t : list Event) :
  last_read t = None <-> count is_read t = 0.
Proof.
  induction t as [|e t IH] using rev_ind.
  - split; reflexivity.
  - rewrite last_read_snoc. unfold count in *. rewrite filter_app, length_app.
    destruct e; simpl; rewrite ?Nat.add_0_r; try exact IH.
    split; [discriminate | lia].
Qed.

(** The frame with which the body of [Run] was left, in a finished [Run]. *)
Lemma finished_cause v parent conn mms cs w out :
  reachable_from (boot v parent conn mms cs) w ->
  run_pc w = RunFinished out ->
  exists fr e, exit_cause mms (trace w) fr /\
               out = outcome (mkFrame (or_else (ret_err fr) e) (panicking fr)).
Proof.
  intros Hr Hpc.
  destruct (reachable_Inv Hr) as [R _ _ _ _ _ _ _].
  destruct (reachable_loop_inv _ _ _ _ _ _ Hr) as (_ & _ & L).
  rewrite (reachable_mms _ _ _ _ _ _ Hr) in L.
  unfold run_inv in R. rewrite Hpc in R. destruct R as (fr & Hex & _ & _ & Hs).
  rewrite Hex in L. exists fr.
  destruct (closes_socket w).
  - destruct Hs as (e & _ & Ho). exists e. split; assumption.
  - destruct Hs as (_ & Ho). exists None. split; [assumption|].
    rewrite or_else_nil. rewrite Ho. destruct fr; reflexivity.
Qed.

(** X1. [Process] is called once for each datagram that was read without
    an error and with a length that fits the buffer, in the order of the
    reads and with the length that was read: the lengths of those reads
    are the lengths handed to [Process], followed by the datagram that
    [Run] holds at the moment.  [Run] holds at most one datagram, and none
    while it waits for a read or when it has finished. *)
Theorem X1_process_once_per_datagram v parent conn mms cs w :
  reachable_from (boot v parent conn mms cs) w ->
  ok_reads mms (trace w) = processed (trace w) ++ pending_datagram mms (run_pc w) /\
  (length (pending_datagram mms (run_pc w)) <= 1)%nat /\
  (run_pc w = RunRead \/ finished w = true ->
   processed (trace w) = ok_reads mms (trace w)).
Proof.
  intros Hr. destruct (reachable_loop_inv _ _ _ _ _ _ Hr) as (L & _ & _).
  rewrite (reachable_mms _ _ _ _ _ _ Hr) in L.
  split; [exact L|]. split.
  - destruct (run_pc w) as [| | |n [e|]|n [e|]|n| | | | | |]; simpl;
      try destruct (in_range mms n); simpl; lia.
  - intros [H|H]; rewrite L.
    + rewrite H. simpl. now rewrite app_nil_r.
    + unfold finished in H. destruct (run_pc w); try discriminate H.
      simpl. now rewrite app_nil_r.
Qed.

(** X1 at the scenario of the failing processor: the two datagrams read
    are the two datagrams processed. *)
Lemma X1_witness :
  reachable_from session64 process_error_world /\
  processed (trace process_error_world) = [10; 20]%Z.
Proof.
  split; [exact process_error_reachable|].
  destruct (X1_process_once_per_datagram SessionGo emptyCtx 0 64 true
              process_error_world process_error_reachable) as (_ & _ & H).
  rewrite H; [reflexivity | right; reflexivity].
Defined.

(** X2. Every slice handed to [Process] has a length between 0 and
    [MaxMessageSize()], and [MaxMessageSize()] is the size given to
    [NewSession] as long as the session lives. *)
Theorem X2_processed_within_buffer v parent conn mms cs w n :
  reachable_from (boot v parent conn mms cs) w ->
  In n (processed (trace w)) ->
  MaxMessageSize (sess w) = mms /\ (0 <= n <= mms)%Z.
Proof.
  intros Hr Hin. split; [exact (reachable_mms _ _ _ _ _ _ Hr)|].
  destruct (reachable_loop_inv _ _ _ _ _ _ Hr) as (L & _ & _).
  rewrite (reachable_mms _ _ _ _ _ _ Hr) in L.
  apply in_range_spec. apply (ok_reads_in_range mms n (trace w)).
  rewrite L. apply in_or_app. left. exact Hin.
Qed.

(** X2 at the same scenario. *)
Lemma X2_witness :
  reachable_from session64 process_error_world /\
  In 20%Z (processed (trace process_error_world)) /\
  (0 <= 20 <= 64)%Z.
Proof.
  assert (Hin : In 20%Z (processed (trace process_error_world)))
    by (right; left; reflexivity).
  split; [exact process_error_reachable|]. split; [exact Hin|].
  exact (proj2 (X2_processed_within_buffer SessionGo emptyCtx 0 64 true
                  process_error_world 20%Z process_error_reachable Hin)).
Defined.

(** X3. [Run] never returns nil.  It returns the error of its last read,
    as the transport gave it, or, when that read succeeded with a length
    that fits the buffer, the error of [Process] for that datagram; the
    error of the transport's [Close] does not take its place. *)
Theorem X3_Run_returns_read_or_process_error v parent conn mms cs w r :
  reachable_from (boot v parent conn mms cs) w ->
  run_pc w = RunFinished (Returns r) ->
  exists n,
    (exists c, last_read (trace w) = Some (n, Some (ErrTransport c)) /\
               r = Some (ErrTransport c)) \/
    (exists c, last_read (trace w) = Some (n, None) /\
               (0 <= n <= mms)%Z /\ r = Some (ErrProcess c)).
Proof.
  intros Hr Hpc.
  destruct (finished_cause _ _ _ _ _ _ _ Hr Hpc) as (fr & e & Hc & Ho).
  unfold outcome in Ho. simpl in Ho. unfold exit_cause in Hc.
  destruct (panicking fr); [discriminate Ho|].
  injection Ho as ->.
  destruct (last_read (trace w)) as [[n [e1|]]|]; [| |contradiction].
  - destruct Hc as (_ & -> & Ht). exists n. left.
    destruct e1; try discriminate Ht. eexists. split; reflexivity.
  - destruct Hc as (_ & Hin & Hp). exists n. right.
    destruct (ret_err fr) as [[]|]; try discriminate Hp.
    eexists. split; [reflexivity|]. split; [|reflexivity].
    apply in_range_spec. exact Hin.
Qed.

(** X3 at the same scenario: [Run] returns the error of [Process], not the
    error of the transport's [Close]. *)
Lemma X3_witness :
  reachable_from session64 process_error_world /\
  run_pc process_error_world = RunFinished (Returns (Some (ErrProcess 5))) /\
  exists n,
    (exists c, last_read (trace process_error_world) = Some (n, Some (ErrTransport c)) /\
               Some (ErrProcess 5) = Some (ErrTransport c)) \/
    (exists c, last_read (trace process_error_world) = Some (n, None) /\
               (0 <= n <= 64)%Z /\ Some (ErrProcess 5) = Some (ErrProcess c)).
Proof.
  split; [exact process_error_reachable|]. split; [reflexivity|].
  exact (X3_Run_returns_read_or_process_error SessionGo emptyCtx 0 64 true
           process_error_world _ process_error_reachable eq_refl).
Defined.




(** ** A negative [maxMessageSize] *)

Lemma no_timer_step (a : Action) (w w' : World) :
  loop_inv w -> (maxMessageSize (sess w) < 0)%Z ->
  step a w = Some w' -> timer w = None -> timer w' = None.
Proof.
  intros (_ & L & _) Hn H. step_cases w a H.
  all: subst; simpl; try (intros E; exact E); try discriminate.
  all: simpl in L; lia.
Qed.

Lemma negative_size_no_timer v parent conn mms cs w :
  (mms < 0)%Z ->
  reachable_from (boot v parent conn mms cs) w -> timer w = None.
Proof.
  intros Hn. revert w. apply reachable_ind.
  - reflexivity.
  - intros a w w' Hr I Hs.
    apply (no_timer_step a w w'); auto.
    + exact (reachable_loop_inv _ _ _ _ _ _ Hr).
    + rewrite (reachable_mms _ _ _ _ _ _ Hr). exact Hn.
Qed.

Lemma no_read_no_io (t : list Event) :
  count is_read t = 0 -> processed t = [] -> io_results t = [].
Proof.
  induction t as [|e t IH]; [reflexivity|].
  unfold count. simpl. destruct e; simpl; try exact IH; discriminate.
Qed.

Lemma no_read_no_ok_reads (mms : Z) (t : list Event) :
  count is_read t = 0 -> ok_reads mms t = [].
Proof.
  induction t as [|e t IH]; [reflexivity|].
  unfold count. simpl. destruct e; simpl; try exact IH; discriminate.
Qed.

(** X5. With a negative [maxMessageSize], [Run] panics in [make] before
    the timer is created and before the first read: no timer exists, no
    read and no [Process] ever answers, and a [Run] that has finished has
    panicked. *)
Theorem X5_negative_size_no_io v parent conn mms cs w :
  reachable_from (boot v parent conn mms cs) w ->
  (mms < 0)%Z ->
  timer w = None /\ io_results (trace w) = [] /\
  forall out, run_pc w = RunFinished out -> out = Panics.
Proof.
  intros Hr Hn.
  destruct (reachable_Inv Hr) as [R _ _ _ _ _ _ _].
  destruct (reachable_loop_inv _ _ _ _ _ _ Hr) as (L1 & L2 & L3).
  rewrite (reachable_mms _ _ _ _ _ _ Hr) in L1, L2, L3.
  assert (Hread : count is_read (trace w) = 0).
  { apply last_read_none. unfold run_inv in R.
    destruct (run_pc w);
      repeat match goal with
             | H : _ /\ _ |- _ => destruct H
             | H : exists _, _ |- _ => destruct H
             end; try lia; try assumption.
    all: match goal with H : exits _ = _ |- _ => rewrite H in L3 end.
    all: unfold exit_cause in L3.
    all: destruct (last_read (trace w)) as [[n [e|]]|]; [| |reflexivity].
    all: destruct (panicking _);
      repeat match goal with H : _ /\ _ |- _ => destruct H end; lia. }
  split; [exact (negative_size_no_timer _ _ _ _ _ _ Hn Hr)|]. split.
  - apply no_read_no_io; [exact Hread|].
    rewrite (no_read_no_ok_reads mms _ Hread) in L1.
    symmetry in L1. apply app_eq_nil in L1. tauto.
  - intros out Hpc.
    destruct (finished_cause _ _ _ _ _ _ _ Hr Hpc) as (fr & e & Hc & Ho).
    unfold outcome in Ho. simpl in Ho. unfold exit_cause in Hc.
    destruct (panicking fr); [exact Ho|].
    destruct (last_read (trace w)) as [[n [e1|]]|]; try contradiction; lia.
Qed.

(** X5 at a session of size -1. *)
Lemma X5_witness :
  reachable_from negative_size_session make_panic_world /\
  (-1 < 0)%Z /\
  timer make_panic_world = None /\ io_results (trace make_panic_world) = [] /\
  run_pc make_panic_world = RunFinished Panics.
Proof.
  assert (Hr : reachable_from negative_size_session make_panic_world)
    by (exists make_panic_schedule; reflexivity).
  assert (Hn : (-1 < 0)%Z) by lia.
  split; [exact Hr|]. split; [exact Hn|].
  destruct (X5_negative_size_no_io SessionGo emptyCtx 0 (-1) true
              make_panic_world Hr Hn) as (H1 & H2 & _).
  split; [exact H1|]. split; [exact H2|]. reflexivity.
Defined.

(** ** The values of the session's context *)

Lemma sets_of_app (k : key) (t1 t2 : list Event) :
  sets_of k (t1 ++ t2) = sets_of k t1 ++ sets_of k t2.
Proof. apply flat_map_app. Qed.

#[local] Hint Rewrite sets_of_app : trace_rw.

Lemma value_of_sets_step (parent : context) (k : key) (a : Action) (w w' : World) :
  step a w = Some w' ->
  Value (Context (sess w)) k = last (sets_of k (trace w)) (Value parent k) ->
  Value (Context (sess w')) k = last (sets_of k (trace w')) (Value parent k).
Proof.
  intros H I. step_cases w a H.
  all: subst; unfold Context in *; simpl in *.
  all: autorewrite with trace_rw; simpl; try exact I.
  all: destruct k as [| m | | m]; simpl; autorewrite with trace_rw; try exact I.
  all: destruct (Nat.eqb n m); simpl; autorewrite with trace_rw; try exact I.
  all: symmetry; apply last_last.
Qed.

Lemma sets_of_nil (k : key) (t : list Event) :
  (forall k' v, In (EvSetContextValue k' v) t -> key_eqb k' k = false) ->
  sets_of k t = [].
Proof.
  induction t as [|e t IH]; intros H; [reflexivity|].
  simpl. rewrite IH by (intros k' v' Hin; apply (H k' v'); right; exact Hin).
  destruct e; try reflexivity.
  rewrite (H k0 v) by (left; reflexivity). reflexivity.
Qed.

(** X6. The value of a key in the context of the session is the value of
    the last successful [SetContextValue] for an equal key, and the value
    that the context given to [NewSession] has for the key when there was
    none. *)
Theorem X6_context_value_lookup v parent conn mms cs w k :
  reachable_from (boot v parent conn mms cs) w ->
  Value (Context (sess w)) k = last (sets_of k (trace w)) (Value parent k) /\
  ((forall k' x, In (EvSetContextValue k' x) (trace w) -> key_eqb k' k = false) ->
   Value (Context (sess w)) k = Value parent k).
Proof.
  intros Hr.
  assert (H : Value (Context (sess w)) k =
              last (sets_of k (trace w)) (Value parent k)).
  { revert w Hr. apply reachable_ind.
    - destruct v; reflexivity.
    - intros a w w' _ I Hs. exact (value_of_sets_step parent k a w w' Hs I). }
  split; [exact H|].
  intros Hk. rewrite H, (sets_of_nil k _ Hk). reflexivity.
Qed.

(** X6 at a session where the key 3 was set twice. *)
Lemma X6_witness :
  reachable_from session64 set_values_world /\
  Value (Context (sess set_values_world)) (Key 3) = Val 9.
Proof.
  assert (Hr : reachable_from session64 set_values_world)
    by (exists set_values_schedule; reflexivity).
  split; [exact Hr|].
  rewrite (proj1 (X6_context_value_lookup SessionGo emptyCtx 0 64 true
                    set_values_world (Key 3) Hr)).
  reflexivity.
Defined.

(** ** [Done] stays signalled *)

Lemma ctx_done_mono (X Y : list nat) (c : context) :
  (forall i, mem i X = true -> mem i Y = true) ->
  ctx_done X c = true -> ctx_done Y c = true.
Proof.
  intros H. induction c as [|p IH i|p IH k x]; simpl; auto.
  rewrite !orb_true_iff. intros [Hi|Hp]; [left; apply H; exact Hi | right; auto].
Qed.

Lemma Done_step (a : Action) (w w' : World) :
  step a w = Some w' ->
  Done (cancelled w) (sess w) = true -> Done (cancelled w') (sess w') = true.
Proof.
  intros H. step_cases w a H.
  all: subst; unfold Done, Context; simpl; try (intros E; exact E).
  all: apply ctx_done_mono; intros i Hi; rewrite mem_call_cancel, Hi;
    apply orb_true_r.
Qed.

(** X7. Once [Done] is signalled it stays signalled, whatever the
    session, its callers and the owners of its context do next. *)
Theorem X7_Done_is_permanent (sch : list Action) (w w' : World) :
  exec sch w = Some w' ->
  Done (cancelled w) (sess w) = true ->
  Done (cancelled w') (sess w') = true.
Proof.
  revert w. induction sch as [|a sch IH]; intros w H Hd; simpl in H.
  - injection H as <-. exact Hd.
  - destruct (step a w) as [w1|] eqn:E; [|discriminate].
    apply (IH w1 H). exact (Done_step a w w1 E Hd).
Qed.

(** X7 at a closed session: [Run], [SetContextValue] and the owner of the
    context go on, [Done] stays signalled. *)
Lemma X7_witness :
  Done (cancelled closed_child_world) (sess closed_child_world) = true /\
  exists w',
    exec [ARun; ARun; ACallSetContextValue (Key 1) (Val 2); AParentCancel 0]
         closed_child_world = Some w' /\
    Done (cancelled w') (sess w') = true.
Proof.
  split; [reflexivity|].
  eexists. split; [reflexivity|].
  apply (X7_Done_is_permanent
           [ARun; ARun; ACallSetContextValue (Key 1) (Val 2); AParentCancel 0]
           closed_child_world _ eq_refl eq_refl).
Defined.

(** ** [Close] and the context given to [NewSession] *)

Lemma owner_cancels_app (t1 t2 : list Event) :
  owner_cancels (t1 ++ t2) = owner_cancels t1 ++ owner_cancels t2.
Proof. apply flat_map_app. Qed.

#[local] Hint Rewrite owner_cancels_app : trace_rw.

Lemma mem_app (i : nat) (X Y : list nat) : mem i (X ++ Y) = mem i X || mem i Y.
Proof. apply existsb_app. Qed.

Lemma owner_step (a : Action) (w w' : World) :
  step a w = Some w' ->
  (forall i, i <> cancel (sess w) ->
             mem i (cancelled w) = mem i (owner_cancels (trace w))) ->
  forall i, i <> cancel (sess w') ->
            mem i (cancelled w') = mem i (owner_cancels (trace w')).
Proof.
  intros H I. step_cases w a H.
  all: subst; simpl in *; intros i Hi.
  all: autorewrite with trace_rw; simpl.
  all: rewrite ?mem_call_cancel, ?mem_app; simpl.
  all: rewrite ?(I i Hi), ?orb_false_r; try reflexivity.
  all: try (destruct (Nat.eqb_spec i (cancel s)); [contradiction|reflexivity]).
  apply orb_comm.
Qed.

Lemma ctx_done_ext (X Y : list nat) (c : context) :
  (forall i, i <= max_id c -> mem i X = mem i Y) ->
  ctx_done X c = ctx_done Y c.
Proof.
  induction c as [|p IH i|p IH k x]; simpl; intros H; auto.
  rewrite (H i) by lia. rewrite IH; [reflexivity|].
  intros j Hj. apply H. lia.
Qed.

(** X8. [Close] cancels the context of the session only: the context
    given to [NewSession] is done exactly as far as its owners cancelled
    it, and it is not done when they never did. *)
Theorem X8_Close_leaves_parent_context v parent conn mms cs w :
  reachable_from (boot v parent conn mms cs) w ->
  ctx_done (cancelled w) parent = ctx_done (owner_cancels (trace w)) parent /\
  (owner_cancels (trace w) = [] -> ctx_done (cancelled w) parent = false).
Proof.
  intros Hr.
  destruct (reachable_Inv Hr) as [_ _ _ _ (_ & Hc & _) _ _ _].
  assert (H : forall i, i <> cancel (sess w) ->
                        mem i (cancelled w) = mem i (owner_cancels (trace w))).
  { clear Hc. revert w Hr.
    apply (reachable_ind _ (fun w => forall i, i <> cancel (sess w) ->
             mem i (cancelled w) = mem i (owner_cancels (trace w)))).
    - intros i _. destruct v; reflexivity.
    - intros a w w' _ I Hs. exact (owner_step a w w' Hs I). }
  assert (E : ctx_done (cancelled w) parent =
              ctx_done (owner_cancels (trace w)) parent).
  { apply ctx_done_ext. intros i Hi. apply H. rewrite Hc. lia. }
  split; [exact E|].
  intros Hn. rewrite E, Hn. clear. induction parent; simpl; auto.
Qed.

(** X8 at a session closed by a caller: the session is done, the context
    it was made from is not. *)
Lemma X8_witness :
  reachable_from child_session closed_child_world /\
  Done (cancelled closed_child_world) (sess closed_child_world) = true /\
  ctx_done (cancelled closed_child_world) (cancelCtx emptyCtx 0) = false.
Proof.
  assert (Hr : reachable_from child_session closed_child_world)
    by (exists [ACallClose]; reflexivity).
  split; [exact Hr|]. split; [reflexivity|].
  apply (X8_Close_leaves_parent_context SessionGo (cancelCtx emptyCtx 0) 0 64 true
           closed_child_world Hr).
  reflexivity.
Defined.

(** ** Who writes to the transport *)

Lemma writes_step (a : Action) (w w' : World) :
  step a w = Some w' ->
  filter is_write (trace w') = filter is_write (trace w) ++ writes_of [a].
Proof.
  intros H. step_cases w a H.
  all: subst; unfold writes_of; simpl.
  all: try match goal with H : Marshal _ = _ |- _ => rewrite H end; simpl.
  all: rewrite ?filter_app; simpl; rewrite ?app_nil_r; reflexivity.
Qed.

Lemma writes_of_app (s1 s2 : list Action) :
  writes_of (s1 ++ s2) = writes_of s1 ++ writes_of s2.
Proof. apply flat_map_app. Qed.

Lemma writes_exec (sch : list Action) (w w' : World) :
  exec sch w = Some w' ->
  filter is_write (trace w') = filter is_write (trace w) ++ writes_of sch.
Proof.
  revert w. induction sch as [|a sch IH]; intros w H; simpl in H.
  - injection H as <-. simpl. now rewrite app_nil_r.
  - destruct (step a w) as [w1|] eqn:E; [|discriminate].
    rewrite (IH w1 H), (writes_step a w w1 E), <- app_assoc.
    rewrite <- writes_of_app. reflexivity.
Qed.

(** X9. The session writes to the transport in [WriteMessage] only: the
    writes of an execution are those of its calls of [WriteMessage] with a
    message that could be encoded, in the order of the calls.
    [WriteMessage] leaves the session as it is, whatever the transport
    answers: the registry, the context, the cancellation, the timer, the
    progress of [Run] and the cleanup events are unchanged. *)
Theorem X9_only_WriteMessage_writes v parent conn mms cs sch w :
  exec sch (boot v parent conn mms cs) = Some w ->
  filter is_write (trace w) = writes_of sch /\
  forall req answer,
    let w' := fst (WriteMessage req answer w) in
    sess w' = sess w /\ cancelled w' = cancelled w /\ run_pc w' = run_pc w /\
    timer w' = timer w /\ cleanup_view (trace w') = cleanup_view (trace w).
Proof.
  intros H. split.
  - rewrite (writes_exec sch _ w H). destruct v; reflexivity.
  - intros req answer. unfold WriteMessage, WriteWithContext, log_Printf.
    destruct (Marshal req) as [data [e|]]; simpl; [repeat split|].
    destruct (variant w); simpl; autorewrite with trace_rw; repeat split.
Qed.

(** X9 at three calls of [WriteMessage], one of them after [Run] has
    returned and one with a message that cannot be encoded. *)
Lemma X9_witness :
  exec writes_schedule session64 = Some writes_world /\
  filter is_write (trace writes_world) =
  [EvWrite emptyCtx [Byte.x01] None;
   EvWrite emptyCtx [Byte.x02] (Some (ErrTransport 6))].
Proof.
  assert (H : exec writes_schedule session64 = Some writes_world) by reflexivity.
  split; [exact H|].
  rewrite (proj1 (X9_only_WriteMessage_writes SessionGo emptyCtx 0 64 true
                    writes_schedule writes_world H)).
  reflexivity.
Defined.

(** ** [close], called again *)

(** X10. [close] takes the hooks out of the registry, calls them in the
    order of registration and then, with [closeSocket], closes the
    transport and returns its answer (nil otherwise); the registry is
    empty afterwards.  Called again, [close] calls no hook, but with
    [closeSocket] it closes the transport once more. *)
Theorem X10_close_drains_the_registry (a1 a2 : option nat) (w : World) :
  let w1 := fst (close a1 w) in
  let w2 := fst (close a2 w1) in
  trace w1 =
    trace w ++ EvPop (onClose (sess w)) :: map EvHook (onClose (sess w)) ++
    (if closes_socket w then [EvConnClose (transport_error a1)] else []) /\
  snd (close a1 w) = (if closes_socket w then transport_error a1 else None) /\
  onClose (sess w1) = [] /\
  hooks_fired (trace w2) = hooks_fired (trace w1) /\
  conn_closes (trace w2) =
    conn_closes (trace w1) ++
    (if closes_socket w then [transport_error a2] else []).
Proof.
  destruct w as [v s X tm clk pc gpc t].
  unfold close, closes_socket. simpl. rewrite !call_hooks_eq. simpl.
  destruct v; simpl; [destruct (closeSocket s); simpl|].
  all: rewrite ?call_hooks_eq; simpl.
  all: autorewrite with trace_rw; simpl.
  all: rewrite <- ?app_assoc; simpl; repeat split; autorewrite with trace_rw; reflexivity.
Qed.

(** ** What the older session logs *)

Lemma log_inv_step (a : Action) (w w' : World) :
  log_inv w -> step a w = Some w' -> log_inv w'.
Proof.
  intros I H. unfold log_inv in *. step_cases w a H.
  all: subst; simpl in *.
  all: autorewrite with trace_rw; simpl; rewrite ?length_app; simpl; try lia.
  all: destruct v; simpl in *; autorewrite with trace_rw; simpl; lia.
Qed.

(** X11. The older session logs one line for each datagram that it hands
    to [Process] and one line for each message that it writes. *)
Theorem X11_older_session_logs conn parent mms cs w :
  reachable_from (boot Part000 parent conn mms cs) w ->
  count is_log (trace w) =
  length (processed (trace w)) + awaits_process (run_pc w) +
  count is_write (trace w).
Proof.
  intros Hr.
  assert (H : log_inv w).
  { revert w Hr. apply reachable_ind.
    - reflexivity.
    - intros a w w' _. apply log_inv_step. }
  destruct (reachable_Inv Hr) as [_ _ _ _ _ Hv _ _].
  unfold log_inv in H. rewrite Hv in H. exact H.
Qed.

(** X11 at two datagrams and one message. *)
Lemma X11_witness :
  reachable_from part000_session part000_world /\
  count is_log (trace part000_world) = 3.
Proof.
  assert (Hr : reachable_from part000_session part000_world)
    by (exists part000_schedule; reflexivity).
  split; [exact Hr|].
  rewrite (X11_older_session_logs 0 emptyCtx 64 true part000_world Hr).
  reflexivity.
Defined.

(** ** After [Run] has returned *)

Lemma finished_step (a : Action) (w w' : World) :
  timer_inv w -> finished w = true -> step a w = Some w' ->
  run_pc w' = run_pc w /\
  count is_fire (trace w') = count is_fire (trace w) /\
  count is_read (trace w') = count is_read (trace w).
Proof.
  intros Ti Hf H. unfold timer_inv, finished in *. step_cases w a H.
  all: subst; simpl in *; try discriminate Hf.
  all: autorewrite with trace_rw; simpl; try (split; [reflexivity|lia]).
  all: try (repeat split; lia).
  exfalso. destruct pc; try discriminate Hf.
  destruct Ti as ((_ & _ & _ & _ & _ & _ & Hst & _) & _).
  match goal with
  | H : (armed _ && _)%bool = true |- _ =>
      rewrite (Hst eq_refl) in H; discriminate H
  end.
Qed.

(** X12. After [Run] has returned it stays returned, the idle timer does
    not fire any more and no read is answered, whatever happens next. *)
Theorem X12_no_expiry_after_Run v parent conn mms cs w sch w' :
  reachable_from (boot v parent conn mms cs) w ->
  finished w = true ->
  exec sch w = Some w' ->
  run_pc w' = run_pc w /\
  count is_fire (trace w') = count is_fire (trace w) /\
  count is_read (trace w') = count is_read (trace w).
Proof.
  intros Hr Hf. revert w Hr Hf.
  induction sch as [|a sch IH]; intros w Hr Hf H; simpl in H.
  - injection H as <-. auto.
  - destruct (step a w) as [w1|] eqn:E; [|discriminate].
    destruct (reachable_Inv Hr) as [_ _ Ti _ _ _ _ _].
    destruct (finished_step a w w1 Ti Hf E) as (H1 & H2 & H3).
    assert (Hf1 : finished w1 = true) by (unfold finished in *; rewrite H1; exact Hf).
    destruct (IH w1 (reachable_step _ _ _ a Hr E) Hf1 H) as (I1 & I2 & I3).
    rewrite I1, I2, I3. auto.
Qed.

(** X12 at the session whose first read failed: time passes, the timer
    stays silent. *)
Lemma X12_witness :
  reachable_from session64 read_error_world /\
  finished read_error_world = true /\
  exists w',
    exec [ATick timeout; ACallClose; ATick timeout] read_error_world = Some w' /\
    count is_fire (trace w') = 0.
Proof.
  assert (Hr : reachable_from session64 read_error_world)
    by (exists read_error_schedule; reflexivity).
  split; [exact Hr|]. split; [reflexivity|].
  eexists. split; [reflexivity|].
  destruct (X12_no_expiry_after_Run SessionGo emptyCtx 0 64 true read_error_world
              [ATick timeout; ACallClose; ATick timeout] _ Hr eq_refl eq_refl)
    as (_ & H2 & _).
  rewrite H2. reflexivity.
Defined.

(** ** The cleanup runs in a session that is done *)

(** X13. From the deferred [s.Close()] of [Run] on, that is while the
    hooks run and the transport is closed, [Done] is signalled. *)
Theorem X13_cleanup_sees_Done v parent conn mms cs w :
  reachable_from (boot v parent conn mms cs) w ->
  after_cancel (run_pc w) = true ->
  Done (cancelled w) (sess w) = true.
Proof.
  intros Hr Ha. destruct (reachable_Inv Hr) as [R _ _ _ (_ & _ & H3) _ _ _].
  rewrite (Done_spec Hr). apply orb_true_iff. left. apply H3.
  assert (Hi : In (EvCancel RunLoop) (cleanup_view (trace w))).
  { unfold run_inv in R. destruct (run_pc w); try discriminate Ha.
    all: repeat match goal with
           | H : _ /\ _ |- _ => destruct H
           | H : exists _, _ |- _ => destruct H
           end.
    all: match goal with H : cleanup_view _ = _ |- _ => rewrite H end.
    all: left; reflexivity. }
  apply in_cleanup_view, in_cancels in Hi.
  intros E. rewrite E in Hi. exact Hi.
Qed.

(** X13 at the call of the first hook. *)
Lemma X13_witness :
  reachable_from session64 hooks_running_world /\
  run_pc hooks_running_world =
    RunDeferHooks (mkFrame (Some (ErrTransport 7)) false) [1] /\
  Done (cancelled hooks_running_world) (sess hooks_running_world) = true.
Proof.
  assert (Hr : reachable_from session64 hooks_running_world)
    by (exists hooks_running_schedule; reflexivity).
  split; [exact Hr|]. split; [reflexivity|].
  exact (X13_cleanup_sees_Done SessionGo emptyCtx 0 64 true
           hooks_running_world Hr eq_refl).
Defined.
